(** * libsocket: the C++ [Socket] wrapper of [src/cpp/Socket.hpp]

    A shallow embedding of the header-only TCP socket wrapper and the
    properties its specification states about it.

    The class derives from [std::ios] and keeps two members, the socket
    descriptor [_sd] and the last captured error code [_errno].  Every
    method talks to the operating system; the embedding threads an explicit
    [World] (the log of the system calls issued so far, the global [errno]
    and the function-local [static] buffers) through each method, and takes
    the operating system itself as an oracle that answers every call. *)

From Stdlib Require Import ZArith List Bool Lia String.
From Stdlib Require Import Strings.Byte.
Import ListNotations.

Local Open Scope list_scope.
Local Open Scope Z_scope.

(* ================================================================== *)
(** ** The status word inherited from [std::ios] *)

(** [std::ios_base::iostate] is a bitmask type; [goodbit] is the value
    zero and the three condition bits are distinct (values as in
    libstdc++). *)
Definition iostate := Z.

Definition goodbit : iostate := 0.
Definition badbit  : iostate := 1.
Definition eofbit  : iostate := 2.
Definition failbit : iostate := 4.

(* ================================================================== *)
(** ** System calls *)

Record sockaddr_in : Type := mk_sockaddr_in {
  sin_family : Z;
  sin_port   : Z;
  sin_addr   : Z
}.

Definition AF_INET : Z := 2.
Definition INADDR_LOOPBACK : Z := 2130706433.

(** [{ 0 }]: the zero-initialised structure. *)
Definition sockaddr_zero : sockaddr_in := mk_sockaddr_in 0 0 0.

(** The calls the header issues, with the arguments that matter. *)
Inductive syscall : Type :=
| sys_socket
| sys_setsockopt (sd : Z)
| sys_bind (sd : Z) (st_addr : sockaddr_in)
| sys_listen (sd : Z) (count : Z)
| sys_accept (sd : Z)
| sys_connect (sd : Z) (st_addr : sockaddr_in)
| sys_close (sd : Z)
| sys_getsockopt (sd : Z)
| sys_strerror (code : Z)
| sys_read (sd : Z) (len : Z)
| sys_write (sd : Z) (buffer : list byte) (len : Z)
| sys_getsockname (sd : Z)
| sys_getpeername (sd : Z)
| sys_inet_pton (addrstr : string).

(** What the operating system answers: the value the call returns, the
    value of [errno] once it has returned, and what it wrote through its
    output pointers (bytes for [read] and [strerror]; an
    integer for [getsockopt] and [inet_pton]; an address structure for
    [getsockname] and [getpeername]). *)
Record reply : Type := mk_reply {
  ret   : Z;
  err   : Z;
  bytes : list byte;
  val   : Z;
  sa    : sockaddr_in
}.

(** The process state around a [Socket]: the calls issued so far (oldest
    first), the global [errno], and the [static] locals of [info],
    [peerinfo] and [localinfo]. *)
Record World : Type := mk_World {
  trace        : list syscall;
  errno        : Z;
  info_st      : sockaddr_in;
  peerinfo_st  : sockaddr_in;
  localinfo_st : sockaddr_in
}.

Definition world0 : World :=
  mk_World [] 0 sockaddr_zero sockaddr_zero sockaddr_zero.

(** A computation that may issue system calls. *)
Definition OS (A : Type) : Type := World -> A * World.

Definition retM {A : Type} (a : A) : OS A := fun w => (a, w).

Definition bindM {A B : Type} (m : OS A) (k : A -> OS B) : OS B :=
  fun w => let (a, w1) := m w in k a w1.

Declare Scope os_scope.
Delimit Scope os_scope with os.
Notation "x <- m ;; k" := (bindM m (fun x => k))
  (at level 61, m at next level, right associativity) : os_scope.
Notation "' p <- m ;; k" := (bindM m (fun x => match x with p => k end))
  (at level 61, p pattern, m at next level, right associativity) : os_scope.

Definition get_errno : OS Z := fun w => (errno w, w).

Definition get_info_st : OS sockaddr_in := fun w => (info_st w, w).
Definition get_peerinfo_st : OS sockaddr_in := fun w => (peerinfo_st w, w).
Definition get_localinfo_st : OS sockaddr_in := fun w => (localinfo_st w, w).

Definition set_info_st (a : sockaddr_in) : OS unit :=
  fun w => (tt, mk_World (trace w) (errno w) a (peerinfo_st w) (localinfo_st w)).
Definition set_peerinfo_st (a : sockaddr_in) : OS unit :=
  fun w => (tt, mk_World (trace w) (errno w) (info_st w) a (localinfo_st w)).
Definition set_localinfo_st (a : sockaddr_in) : OS unit :=
  fun w => (tt, mk_World (trace w) (errno w) (info_st w) (peerinfo_st w) a).

(* ================================================================== *)
(** ** The [Socket] object *)

Record Socket : Type := mk_Socket {
  _sd     : Z;        (* int _sd{ -1 } *)
  _errno  : Z;        (* int _errno{ 0 } *)
  rdstate : iostate   (* the status word of the std::ios base *)
}.

Definition with_sd (s : Socket) (sd : Z) : Socket :=
  mk_Socket sd (_errno s) (rdstate s).
Definition with_errno (s : Socket) (e : Z) : Socket :=
  mk_Socket (_sd s) e (rdstate s).
Definition with_rdstate (s : Socket) (st : iostate) : Socket :=
  mk_Socket (_sd s) (_errno s) st.

(** The queries of [std::ios]. *)
Definition has_flag (flag : iostate) (s : Socket) : bool :=
  negb (Z.land (rdstate s) flag =? 0).

Definition good (s : Socket) : bool := rdstate s =? 0.
Definition eof  (s : Socket) : bool := has_flag eofbit s.
Definition fail (s : Socket) : bool := has_flag (Z.lor badbit failbit) s.
Definition bad  (s : Socket) : bool := has_flag badbit s.
(** [explicit operator bool] is [!fail()], [operator!] is [fail()]. *)
Definition to_bool (s : Socket) : bool := negb (fail s).

(** [isOpen]: [return (_sd != -1)]. *)
Definition isOpen (s : Socket) : bool := negb (_sd s =? -1).

(** Every condition bit of [old] is still set in [new]. *)
Definition keeps_bits (old new : Socket) : Prop :=
  Z.lor (rdstate new) (rdstate old) = rdstate new.

(* ================================================================== *)
(** ** A concrete operating system, for running the model *)

Definition ok : reply := mk_reply 0 0 [] 0 sockaddr_zero.

(** A failed call: -1 is returned and [errno] is set. *)
Definition ko (e : Z) : reply := mk_reply (-1) e [] 0 sockaddr_zero.

Definition EBADF : Z := 9.

(** Every call on the descriptor -1 fails with [EBADF]. *)
Definition on_sd (sd : Z) (r : reply) : reply :=
  if sd =? -1 then ko EBADF else r.

Definition is_read (c : syscall) : bool :=
  match c with sys_read _ _ => true | _ => false end.

(** A well-behaved system whose peer sends [input], one byte per [read],
    and then closes the connection: [socket] hands out descriptor 3,
    [accept] descriptor 4, [write] takes everything, [inet_pton] knows
    the loopback address only. *)
Definition os_peer (input : list byte) (h : list syscall) (c : syscall)
    : reply :=
  match c with
  | sys_socket => mk_reply 3 0 [] 0 sockaddr_zero
  | sys_read sd _ =>
      on_sd sd
        match nth_error input (List.length (filter is_read h)) with
        | Some b => mk_reply 1 0 [b] 0 sockaddr_zero
        | None => ok
        end
  | sys_setsockopt sd | sys_bind sd _ | sys_listen sd _ | sys_connect sd _
  | sys_close sd | sys_getsockopt sd | sys_getsockname sd
  | sys_getpeername sd => on_sd sd ok
  | sys_accept sd => on_sd sd (mk_reply 4 0 [] 0 sockaddr_zero)
  | sys_write sd _ len => on_sd sd (mk_reply len 0 [] 0 sockaddr_zero)
  | sys_strerror _ => ok
  | sys_inet_pton addrstr =>
      if String.eqb addrstr "127.0.0.1"
      then mk_reply 1 0 [] INADDR_LOOPBACK sockaddr_zero
      else ok
  end.

(** The descriptors that a log of calls closes, oldest first. *)
Fixpoint closes (t : list syscall) : list Z :=
  match t with
  | [] => []
  | sys_close sd :: t' => sd :: closes t'
  | _ :: t' => closes t'
  end.

(** A system on which every call fails. *)
Definition os_down (h : list syscall) (c : syscall) : reply := ko EBADF.

Section Methods.

(** Whether the [std::ios] base reports a stream buffer ([rdbuf() != 0]).
    The class never calls [init] or [rdbuf(sb)], so this is whatever the
    default constructor of [std::ios] leaves there (a null pointer in
    libstdc++ and libc++); every result below holds for either value
    unless it says otherwise. *)
Variable rdbuf : bool.

(** The operating system: given the calls issued so far, the answer to the
    next one. *)
Variable os : list syscall -> syscall -> reply.

(** Issue one system call: ask the oracle, log the call, update [errno]. *)
Definition call (c : syscall) : OS reply :=
  fun w =>
    let r := os (trace w) c in
    (r, mk_World (trace w ++ [c]) (err r)
                 (info_st w) (peerinfo_st w) (localinfo_st w)).

(** [std::ios::clear(state)]: the status becomes [state], with [badbit]
    added when there is no stream buffer.  (The exception mask stays at
    its default, zero, so nothing is thrown.) *)
Definition clear (state : iostate) (s : Socket) : Socket :=
  with_rdstate s (if rdbuf then state else Z.lor state badbit).

(** [std::ios::setstate(state)]: [clear(rdstate() | state)]. *)
Definition setstate (state : iostate) (s : Socket) : Socket :=
  clear (Z.lor (rdstate s) state) s.

Local Open Scope os_scope.

(** [void close()] *)
Definition close (this : Socket) : OS Socket :=
  r <- call (sys_close (_sd this)) ;;
  let this := if ret r =? -1
              then setstate failbit this
              else setstate goodbit this in
  let this := with_sd this (-1) in
  e <- get_errno ;;
  retM (with_errno this e).

(** [Socket(int sd)] *)
Definition Socket_sd (sd : Z) : OS Socket :=
  let this := mk_Socket sd 0 goodbit in
  r <- call (sys_setsockopt (_sd this)) ;;
  let this := if ret r =? -1 then setstate failbit this else this in
  this <- (if fail this (* !*this *) then close this else retM this) ;;
  e <- get_errno ;;
  retM (with_errno this e).

(** [Socket()], delegating to [Socket(socket(PF_INET, SOCK_STREAM, 0))]. *)
Definition Socket_new : OS Socket :=
  r <- call sys_socket ;;
  Socket_sd (ret r).

(** [Socket(const Socket &&other) : _sd{ std::move(other._sd) }].
    [other] is a reference to const, so [std::move] yields a const rvalue
    and the [int] is copied; nothing is written to [other].  [_errno]
    takes its default member initialiser and the [std::ios] base is
    default-constructed.  The result is the new object and [other]. *)
Definition Socket_move (other : Socket) : Socket * Socket :=
  (mk_Socket (_sd other) 0 goodbit, other).

(** [~Socket()] *)
Definition Socket_dtor (this : Socket) : OS Socket :=
  if isOpen this then close this else retM this.

(** [void listen(in_port_t port, in_addr_t addr, int count)] *)
Definition listen (port addr count : Z) (this : Socket) : OS Socket :=
  let st_addr := mk_sockaddr_in AF_INET port addr in
  this <- (if good this
           then r <- call (sys_bind (_sd this) st_addr) ;;
                retM (if ret r =? -1 then setstate failbit this else this)
           else retM this) ;;
  this <- (if good this
           then r <- call (sys_listen (_sd this) count) ;;
                retM (if ret r =? -1 then setstate failbit this else this)
           else retM this) ;;
  e <- get_errno ;;
  retM (with_errno this e).

(** [static bool strToAddr(const char *addrstr, in_addr_t *buffer)].
    [inet_pton] returns 1 when it has converted the string (and only then
    stores the address through its last argument), 0 when the string is
    not a valid address of the family, and -1 when the family itself is
    not supported.  The result is the returned flag and the content of
    [*buffer] afterwards. *)
Definition strToAddr (addrstr : string) (buffer : Z) : OS (bool * Z) :=
  let st_addr := sockaddr_zero in
  r <- call (sys_inet_pton addrstr) ;;
  let st_addr := if ret r =? 1
                 then mk_sockaddr_in (sin_family st_addr) (sin_port st_addr) (val r)
                 else st_addr in
  if ret r =? -1 then retM (false, buffer)
  else retM (true, sin_addr st_addr).

(** [void listen(in_port_t port, const char *addrstr, int count)] *)
Definition listen_str (port : Z) (addrstr : string) (count : Z)
    (this : Socket) : OS Socket :=
  let addr := 0 in
  '(ok, addr) <- strToAddr addrstr addr ;;
  let this := if negb ok then setstate failbit this else this in
  listen port addr count this.

(** [Socket accept()]: the receiver afterwards and the returned socket
    (the returned temporary initialises the caller's object directly). *)
Definition accept (this : Socket) : OS (Socket * Socket) :=
  let peersd := -1 in
  peersd <- (if good this
             then r <- call (sys_accept (_sd this)) ;; retM (ret r)
             else retM peersd) ;;
  e <- get_errno ;;
  let this := with_errno this e in
  peer <- Socket_sd peersd ;;
  retM (this, peer).

(** [void connect(in_port_t port, in_addr_t addr)] *)
Definition connect (port addr : Z) (this : Socket) : OS Socket :=
  let st_addr := mk_sockaddr_in AF_INET port addr in
  this <- (if good this
           then r <- call (sys_connect (_sd this) st_addr) ;;
                retM (if ret r =? -1 then setstate failbit this else this)
           else retM this) ;;
  e <- get_errno ;;
  retM (with_errno this e).

(** [void connect(in_port_t port, const char *addrstr)] *)
Definition connect_str (port : Z) (addrstr : string) (this : Socket)
    : OS Socket :=
  let addr := 0 in
  '(ok, addr) <- strToAddr addrstr addr ;;
  let this := if negb ok then setstate failbit this else this in
  connect port addr this.

(** [int errcode()]: [optval] starts at 0 and is written by [getsockopt]
    when that call succeeds. *)
Definition errcode (this : Socket) : OS (Socket * Z) :=
  let optval := 0 in
  if negb (_errno this =? 0) then retM (this, _errno this)
  else
    r <- call (sys_getsockopt (_sd this)) ;;
    let optval := if ret r =? -1 then optval else val r in
    let this := if ret r =? -1 then setstate failbit this else this in
    let this := with_errno this optval in
    retM (this, _errno this).

(** [const char *strerror()] *)
Definition strerror (this : Socket) : OS (Socket * list byte) :=
  '(this, code) <- errcode this ;;
  r <- call (sys_strerror code) ;;
  retM (this, bytes r).

(** Bytes the system stored at the start of a caller's buffer. *)
Definition store (data old : list byte) : list byte :=
  data ++ skipn (List.length data) old.

(** [Socket &read(char *buffer, std::streamsize len)]: the receiver (the
    returned reference is [*this]) and the buffer afterwards. *)
Definition read (buffer : list byte) (len : Z) (this : Socket)
    : OS (Socket * list byte) :=
  r <- call (sys_read (_sd this) len) ;;
  let rdsize := ret r in
  let buffer := if 0 <? rdsize
                then store (firstn (Z.to_nat rdsize) (bytes r)) buffer
                else buffer in
  e <- get_errno ;;
  let this := with_errno this e in
  let this := if (rdsize =? 0) && (0 <? len)
              then setstate eofbit this else this in
  let this := if rdsize =? -1 then setstate badbit this else this in
  retM (this, buffer).

(** The loop of [getline]:
    [while (this->read(&c, 1) && c != delim && c != '\0') buffer += c;]
    One unit of fuel pays for one evaluation of the condition.  The result
    is the receiver, [c] and [buffer] when the loop is left. *)
Fixpoint read_while (fuel : nat) (delim c : byte) (buffer : list byte)
    (this : Socket) (w : World) : option (Socket * byte * list byte * World) :=
  match fuel with
  | O => None
  | S fuel' =>
      let '(this, cbuf, w) := read [c] 1 this w in
      let c := hd c cbuf in
      if to_bool this && negb (Byte.eqb c delim) && negb (Byte.eqb c x00)
      then read_while fuel' delim c (buffer ++ [c]) this w
      else Some (this, c, buffer, w)
  end.

(** [Socket &getline(std::string &buffer, char delim = '\n')]: the
    receiver and the caller's string afterwards.  One unit of fuel pays
    for one (recursive) call. *)
Fixpoint getline (fuel : nat) (delim : byte) (buffer : list byte)
    (this : Socket) (w : World) : option (Socket * list byte * World) :=
  match fuel with
  | O => None
  | S fuel' =>
      let c := xff in          (* char c = -1 *)
      let buffer := [] in      (* buffer.clear() *)
      match read_while fuel delim c buffer this w with
      | None => None
      | Some (this, c, buffer, w) =>
          if Byte.eqb c x00
          then getline fuel' delim buffer this w
          else Some (this, buffer, w)
      end
  end.

(** [Socket &write(const char *buffer, std::streamsize len)] *)
Definition write (buffer : list byte) (len : Z) (this : Socket) : OS Socket :=
  r <- call (sys_write (_sd this) buffer len) ;;
  let wrsize := ret r in
  e <- get_errno ;;
  let this := with_errno this e in
  let this := if ((wrsize =? 0) && (0 <? len)) || (wrsize =? -1)
              then setstate badbit this else this in
  retM this.

(** [const struct sockaddr_in &info()]: [getsockname] fills the static
    [st_addr] when it succeeds. *)
Definition info (this : Socket) : OS (Socket * sockaddr_in) :=
  r <- call (sys_getsockname (_sd this)) ;;
  _ <- (if ret r =? -1 then retM tt else set_info_st (sa r)) ;;
  let this := if ret r =? -1 then setstate failbit this else this in
  st_addr <- get_info_st ;;
  retM (this, st_addr).

(** [const struct sockaddr_in &peerinfo()] *)
Definition peerinfo (this : Socket) : OS (Socket * sockaddr_in) :=
  r <- call (sys_getpeername (_sd this)) ;;
  _ <- (if ret r =? -1 then retM tt else set_peerinfo_st (sa r)) ;;
  let this := if ret r =? -1 then setstate failbit this else this in
  st_addr <- get_peerinfo_st ;;
  retM (this, st_addr).

(** [const struct sockaddr_in &localinfo()]: [local] is destroyed when the
    function returns. *)
Definition localinfo (this : Socket) : OS (Socket * sockaddr_in) :=
  local <- Socket_new ;;
  local <- connect 0 INADDR_LOOPBACK local ;;
  r <- call (sys_getsockname (_sd local)) ;;
  _ <- (if ret r =? -1 then retM tt else set_localinfo_st (sa r)) ;;
  let this := if ret r =? -1 then setstate failbit this else this in
  st_addr <- get_localinfo_st ;;
  _ <- Socket_dtor local ;;
  retM (this, st_addr).

(* ------------------------------------------------------------------ *)
(** *** Sequences of calls on one socket *)

(** The public member functions, with their arguments. *)
Inductive op : Type :=
| op_listen (port addr count : Z)
| op_listen_str (port : Z) (addrstr : string) (count : Z)
| op_accept
| op_connect (port addr : Z)
| op_connect_str (port : Z) (addrstr : string)
| op_close
| op_isOpen
| op_errcode
| op_strerror
| op_read (buffer : list byte) (len : Z)
| op_getline (buffer : list byte) (delim : byte)
| op_write (buffer : list byte) (len : Z)
| op_info
| op_peerinfo
| op_localinfo.

(** One call on [this]; what the call returns besides the receiver is
    dropped.  [fuel] bounds the work of [getline]. *)
Definition run_op (fuel : nat) (o : op) (this : Socket) (w : World)
    : option (Socket * World) :=
  match o with
  | op_listen port addr count => Some (listen port addr count this w)
  | op_listen_str port addrstr count =>
      Some (listen_str port addrstr count this w)
  | op_accept => let '(this, _, w) := accept this w in Some (this, w)
  | op_connect port addr => Some (connect port addr this w)
  | op_connect_str port addrstr => Some (connect_str port addrstr this w)
  | op_close => Some (close this w)
  | op_isOpen => let _ := isOpen this in Some (this, w)
  | op_errcode => let '(this, _, w) := errcode this w in Some (this, w)
  | op_strerror => let '(this, _, w) := strerror this w in Some (this, w)
  | op_read buffer len =>
      let '(this, _, w) := read buffer len this w in Some (this, w)
  | op_getline buffer delim =>
      match getline fuel delim buffer this w with
      | Some (this, _, w) => Some (this, w)
      | None => None
      end
  | op_write buffer len => Some (write buffer len this w)
  | op_info => let '(this, _, w) := info this w in Some (this, w)
  | op_peerinfo => let '(this, _, w) := peerinfo this w in Some (this, w)
  | op_localinfo => let '(this, _, w) := localinfo this w in Some (this, w)
  end.

Fixpoint run_ops (fuel : nat) (ops : list op) (this : Socket) (w : World)
    : option (Socket * World) :=
  match ops with
  | [] => Some (this, w)
  | o :: ops' =>
      match run_op fuel o this w with
      | Some (this, w) => run_ops fuel ops' this w
      | None => None
      end
  end.

(** The peer's bytes as the system hands them out: after the calls [h],
    each further [read] of one byte on [sd] returns 1 and stores the next
    byte of [input]. *)
Fixpoint delivers (sd : Z) (h : list syscall) (input : list byte) : Prop :=
  match input with
  | [] => True
  | b :: rest =>
      ret (os h (sys_read sd 1)) = 1 /\
      hd_error (bytes (os h (sys_read sd 1))) = Some b /\
      delivers sd (h ++ [sys_read sd 1]) rest
  end.

(** A byte that is neither the delimiter nor the null byte. *)
Definition plain (delim b : byte) : Prop := b <> delim /\ b <> x00.

(* ================================================================== *)
(** ** Facts about the status word *)

Lemma land_lor_l (a b f : Z) : Z.land a f <> 0 -> Z.land (Z.lor a b) f <> 0.
Proof.
  intros Ha E. rewrite Z.land_lor_distr_l in E.
  apply Z.lor_eq_0_iff in E. tauto.
Qed.

Lemma land_lor_r (a b f : Z) : Z.land b f <> 0 -> Z.land (Z.lor a b) f <> 0.
Proof. rewrite Z.lor_comm. apply land_lor_l. Qed.

Lemma has_flag_true (f : iostate) (s : Socket) :
  has_flag f s = true <-> Z.land (rdstate s) f <> 0.
Proof.
  unfold has_flag. rewrite negb_true_iff, Z.eqb_neq. tauto.
Qed.

Lemma rdstate_setstate (f : iostate) (s : Socket) :
  rdstate (setstate f s) =
  if rdbuf then Z.lor (rdstate s) f else Z.lor (Z.lor (rdstate s) f) badbit.
Proof. reflexivity. Qed.

Lemma sd_setstate (f : iostate) (s : Socket) : _sd (setstate f s) = _sd s.
Proof. reflexivity. Qed.

Lemma has_flag_setstate (f : iostate) (s : Socket) :
  f <> 0 -> has_flag f (setstate f s) = true.
Proof.
  intros Hf. apply has_flag_true. rewrite rdstate_setstate.
  assert (Z.land (Z.lor (rdstate s) f) f <> 0)
    by (apply land_lor_r; now rewrite Z.land_diag).
  destruct rdbuf; [assumption | now apply land_lor_l].
Qed.

Lemma good_setstate (f : iostate) (s : Socket) :
  f <> 0 -> good (setstate f s) = false.
Proof.
  intros Hf. unfold good. apply Z.eqb_neq. rewrite rdstate_setstate.
  destruct rdbuf; intros E;
    [ | apply Z.lor_eq_0_iff in E; destruct E as [E _] ];
    apply Z.lor_eq_0_iff in E; tauto.
Qed.

Lemma fail_not_good (s : Socket) : fail s = true -> good s = false.
Proof.
  unfold fail, good. intros H. apply has_flag_true in H.
  apply Z.eqb_neq. intros E. now rewrite E in H.
Qed.

Lemma failbit_fail (s : Socket) : has_flag failbit s = true -> fail s = true.
Proof.
  unfold fail. rewrite !has_flag_true. intros H E. apply H.
  rewrite Z.land_lor_distr_r in E. apply Z.lor_eq_0_iff in E. tauto.
Qed.

Lemma failbit_fail_bad (s : Socket) : bad s = true -> fail s = true.
Proof.
  unfold bad, fail. rewrite !has_flag_true. intros H E. apply H.
  rewrite Z.land_lor_distr_r in E. apply Z.lor_eq_0_iff in E. tauto.
Qed.

Lemma keeps_bits_refl (s : Socket) : keeps_bits s s.
Proof. apply Z.lor_diag. Qed.

Lemma keeps_bits_trans (a b c : Socket) :
  keeps_bits a b -> keeps_bits b c -> keeps_bits a c.
Proof.
  unfold keeps_bits. intros Hab Hbc.
  rewrite <- Hbc. rewrite <- Z.lor_assoc. now rewrite Hab.
Qed.

Lemma keeps_bits_setstate (f : iostate) (s : Socket) :
  keeps_bits s (setstate f s).
Proof.
  unfold keeps_bits. rewrite rdstate_setstate.
  apply Z.bits_inj'. intros n _.
  destruct rdbuf; rewrite !Z.lor_spec;
    destruct (Z.testbit (rdstate s) n), (Z.testbit f n),
      (Z.testbit badbit n); reflexivity.
Qed.

Lemma keeps_bits_with_errno (a b : Socket) (e : Z) :
  keeps_bits a b -> keeps_bits a (with_errno b e).
Proof. exact (fun H => H). Qed.

Lemma keeps_bits_with_sd (a b : Socket) (sd : Z) :
  keeps_bits a b -> keeps_bits a (with_sd b sd).
Proof. exact (fun H => H). Qed.

Lemma keeps_bits_same (a b : Socket) : rdstate b = rdstate a -> keeps_bits a b.
Proof. unfold keeps_bits. intros ->. apply Z.lor_diag. Qed.

Lemma keeps_bits_has_flag (f : iostate) (a b : Socket) :
  keeps_bits a b -> has_flag f a = true -> has_flag f b = true.
Proof.
  rewrite !has_flag_true. unfold keeps_bits. intros <- H.
  now apply land_lor_r.
Qed.

(* ================================================================== *)
(** ** Construction and [close] *)

Ltac os_step :=
  unfold bindM, retM, call, get_errno, get_info_st, get_peerinfo_st,
    get_localinfo_st, set_info_st, set_peerinfo_st, set_localinfo_st;
  cbn [fst snd trace errno info_st peerinfo_st localinfo_st
       _sd _errno rdstate with_sd with_errno with_rdstate].

Ltac case_if :=
  match goal with
  | |- context [if ?c then _ else _] => destruct c eqn:?
  end.

(** Closes [keeps_bits old new] when [new] is [old] after some calls of
    [setstate] and writes to the other members. *)
Ltac keeps :=
  unfold keeps_bits;
  cbn [fst snd rdstate with_errno with_sd];
  repeat case_if;
  match goal with
  | |- Z.lor (rdstate ?b) (rdstate ?a) = _ => change (keeps_bits a b)
  end;
  repeat first
    [ apply keeps_bits_refl
    | apply keeps_bits_with_errno
    | apply keeps_bits_with_sd
    | eapply keeps_bits_trans; [ | apply keeps_bits_setstate ] ].

Ltac case_if_in H :=
  match type of H with
  | context [if ?c then _ else _] => destruct c eqn:?
  end.

Ltac status_done :=
  repeat split; auto;
  try (rewrite ?app_nil_r, <- ?app_assoc; reflexivity);
  try (apply keeps_bits_same; reflexivity);
  try apply keeps_bits_refl;
  try apply keeps_bits_setstate.

(** What [close] does, in one equation. *)
Lemma close_eq (s : Socket) (w : World) :
  let r := os (trace w) (sys_close (_sd s)) in
  close s w =
  (mk_Socket (-1) (err r)
     (rdstate (setstate (if ret r =? -1 then failbit else goodbit) s)),
   mk_World (trace w ++ [sys_close (_sd s)]) (err r)
     (info_st w) (peerinfo_st w) (localinfo_st w)).
Proof.
  unfold close. os_step.
  destruct (ret (os (trace w) (sys_close (_sd s))) =? -1); reflexivity.
Qed.

Lemma close_keeps_bits (s : Socket) (w : World) :
  keeps_bits s (fst (close s w)).
Proof.
  rewrite close_eq. cbn [fst]. unfold keeps_bits. cbn [rdstate].
  apply keeps_bits_setstate.
Qed.

Lemma close_unbinds (s : Socket) (w : World) : isOpen (fst (close s w)) = false.
Proof. rewrite close_eq. reflexivity. Qed.

(** [setstate(goodbit)] ors nothing into the status. *)
Lemma rdstate_setstate_goodbit (s : Socket) :
  rdstate (setstate goodbit s) =
  if rdbuf then rdstate s else Z.lor (rdstate s) badbit.
Proof.
  rewrite rdstate_setstate. unfold goodbit. now rewrite Z.lor_0_r.
Qed.

(** A successful [close] leaves every bit that was set. *)
Lemma close_success_status (s : Socket) (w : World) :
  ret (os (trace w) (sys_close (_sd s))) <> -1 ->
  rdstate (fst (close s w)) =
  if rdbuf then rdstate s else Z.lor (rdstate s) badbit.
Proof.
  intros Hok. rewrite close_eq. cbn [fst rdstate].
  apply Z.eqb_neq in Hok. rewrite Hok. apply rdstate_setstate_goodbit.
Qed.

(** The failure path of [Socket(int)]: [setstate(failbit)], then
    [close()], then [_errno = errno]. *)
Lemma Socket_sd_failure (sd : Z) (w : World) :
  ret (os (trace w) (sys_setsockopt sd)) = -1 ->
  Socket_sd sd w =
  let (s, w') := close (setstate failbit (mk_Socket sd 0 goodbit))
                       (snd (call (sys_setsockopt sd) w)) in
  (with_errno s (errno w'), w').
Proof.
  intros Hfail. unfold Socket_sd. os_step. rewrite Hfail.
  change (-1 =? -1) with true. cbv iota.
  rewrite (failbit_fail _ (has_flag_setstate failbit _ ltac:(discriminate))).
  reflexivity.
Qed.

(** [close] on a socket that has [failbit] set: unbound afterwards, and
    [failbit] still set. *)
Lemma close_failed_socket (s : Socket) (w : World) :
  has_flag failbit s = true ->
  let (s', w') := close s w in
  trace w' = trace w ++ [sys_close (_sd s)] /\
  _sd s' = -1 /\ has_flag failbit s' = true.
Proof.
  intros Hf. pose proof (close_keeps_bits s w) as K.
  rewrite close_eq in *. cbn [fst] in K. repeat split.
  exact (keeps_bits_has_flag failbit _ _ K Hf).
Qed.

(** C6. When the [setsockopt] call of [Socket(int)] fails, the constructor
    sets [failbit] and calls [close] on the descriptor it was given: the
    object ends with [_sd == -1], so [isOpen()] is false, and with
    [failbit] set. *)
Theorem ctor_setsockopt_failure (sd : Z) (w : World) :
  ret (os (trace w) (sys_setsockopt sd)) = -1 ->
  let (s, w') := Socket_sd sd w in
  trace w' = trace w ++ [sys_setsockopt sd; sys_close sd] /\
  _sd s = -1 /\ isOpen s = false /\ has_flag failbit s = true.
Proof.
  intros Hfail. rewrite (Socket_sd_failure sd w Hfail).
  set (s0 := setstate failbit (mk_Socket sd 0 goodbit)).
  pose proof (close_failed_socket s0 (snd (call (sys_setsockopt sd) w))
                (has_flag_setstate failbit _ ltac:(discriminate))) as Hc.
  destruct (close s0 (snd (call (sys_setsockopt sd) w))) as [s w'].
  destruct Hc as (Htr & Hsd & Hf). cbn [snd call trace] in Htr.
  unfold isOpen. cbn [_sd with_errno]. rewrite Hsd, Htr, <- app_assoc.
  repeat split. exact Hf.
Qed.

(** The same through the default constructor, on the descriptor that
    [socket] returned. *)
Lemma Socket_new_failure (w : World) :
  let sd := ret (os (trace w) sys_socket) in
  ret (os (trace w ++ [sys_socket]) (sys_setsockopt sd)) = -1 ->
  let (s, w') := Socket_new w in
  _sd s = -1 /\ isOpen s = false /\ has_flag failbit s = true.
Proof.
  intros sd Hfail. unfold Socket_new. os_step. fold sd.
  match goal with |- context [Socket_sd sd ?w0] =>
    rewrite (Socket_sd_failure sd w0 Hfail);
    pose proof (close_failed_socket (setstate failbit (mk_Socket sd 0 goodbit))
                  (snd (call (sys_setsockopt sd) w0))
                  (has_flag_setstate failbit _ ltac:(discriminate))) as Hc
  end.
  match type of Hc with context [close ?s0 ?w0] =>
    destruct (close s0 w0) as [s w'] end.
  destruct Hc as (_ & Hsd & Hf).
  unfold isOpen. cbn [_sd with_errno]. rewrite Hsd. repeat split. exact Hf.
Qed.

(** C8. [listen(port, addr, count)] issues [bind] exactly when the status
    is good on entry, and then the system's [listen] exactly when the
    status is good after the [bind] step; a failed [bind] sets [failbit],
    which is no good status, so the second call is skipped. *)
Theorem listen_bind_then_listen (port addr count : Z) (s : Socket) (w : World) :
  let b := sys_bind (_sd s) (mk_sockaddr_in AF_INET port addr) in
  let l := sys_listen (_sd s) count in
  let bind_failed := ret (os (trace w) b) =? -1 in
  let s1 := if good s && bind_failed then setstate failbit s else s in
  let (s', w') := listen port addr count s w in
  trace w' = trace w ++ (if good s then [b] else [])
                     ++ (if good s1 then [l] else []) /\
  has_flag failbit (setstate failbit s) = true /\
  good (setstate failbit s) = false /\
  keeps_bits s1 s'.
Proof.
  unfold listen. os_step.
  assert (Hf : has_flag failbit (setstate failbit s) = true)
    by now apply has_flag_setstate.
  assert (Hg : good (setstate failbit s) = false) by now apply good_setstate.
  destruct (good s) eqn:Hgood; cbn [andb]; os_step.
  - destruct (ret (os (trace w) (sys_bind (_sd s) _)) =? -1) eqn:Hb.
    + rewrite Hg. os_step. status_done.
    + rewrite Hgood. os_step.
      case_if; status_done.
  - rewrite Hgood. os_step. status_done.
Qed.

(* ================================================================== *)
(** ** Guarded and unguarded calls *)

(** [listen] and [connect] on a socket that is not good: nothing but
    [_errno = errno]. *)
Lemma listen_not_good (port addr count : Z) (s : Socket) (w : World) :
  good s = false ->
  listen port addr count s w = (with_errno s (errno w), w).
Proof.
  intros Hg. unfold listen. os_step. rewrite Hg. os_step. rewrite Hg.
  reflexivity.
Qed.

Lemma connect_not_good (port addr : Z) (s : Socket) (w : World) :
  good s = false ->
  connect port addr s w = (with_errno s (errno w), w).
Proof.
  intros Hg. unfold connect. os_step. rewrite Hg. reflexivity.
Qed.

(** C1 (amended). On a socket whose status has [failbit] or [badbit] set,
    [listen] and [connect] never issue [bind], [listen] or [connect]:
    the overloads that take the address as a value issue no system call
    and leave the status word as it was; the overloads that take it as a
    string issue the [inet_pton] call of the conversion and nothing else,
    and leave the status word as it was unless that call returns -1
    (then [setstate(failbit)] runs).  [read] has no guard: whatever the
    status word is, good, [eofbit] or any other, it issues exactly one
    [read] call on the descriptor, and it keeps every status bit that
    was set. *)
Theorem failed_socket_calls (port addr count len : Z) (addrstr : string)
    (buffer : list byte) (s : Socket) (w : World) :
  (fail s = true ->
   (let (s', w') := listen port addr count s w in
    trace w' = trace w /\ rdstate s' = rdstate s) /\
   (let (s', w') := connect port addr s w in
    trace w' = trace w /\ rdstate s' = rdstate s) /\
   (let (s', w') := listen_str port addrstr count s w in
    trace w' = trace w ++ [sys_inet_pton addrstr] /\
    rdstate s' =
      rdstate (if ret (os (trace w) (sys_inet_pton addrstr)) =? -1
               then setstate failbit s else s)) /\
   (let (s', w') := connect_str port addrstr s w in
    trace w' = trace w ++ [sys_inet_pton addrstr] /\
    rdstate s' =
      rdstate (if ret (os (trace w) (sys_inet_pton addrstr)) =? -1
               then setstate failbit s else s))) /\
  (let '(s', _, w') := read buffer len s w in
   trace w' = trace w ++ [sys_read (_sd s) len] /\ keeps_bits s s').
Proof.
  split.
  - intros Hfail. apply fail_not_good in Hfail.
    assert (Hg : good (setstate failbit s) = false)
      by now apply good_setstate.
    rewrite (listen_not_good port addr count s w Hfail).
    rewrite (connect_not_good port addr s w Hfail).
    unfold listen_str, connect_str, strToAddr. os_step.
    destruct (ret (os (trace w) (sys_inet_pton addrstr)) =? -1);
      os_step; cbn [negb];
      rewrite listen_not_good, connect_not_good by assumption;
      repeat split.
  - unfold read. os_step. split; [reflexivity | keeps].
Qed.

(** [read] issues its system call whatever the status is. *)
Lemma read_trace (buffer : list byte) (len : Z) (s : Socket) (w : World) :
  trace (snd (read buffer len s w)) = trace w ++ [sys_read (_sd s) len].
Proof. reflexivity. Qed.

(** C9. When the system's [read] returns 0 for a positive [len] the call
    sets [eofbit]; when it returns -1 the call sets [badbit].  In both
    cases [_errno] holds the value [errno] has after the system call, and
    the object the call returns is the receiver, on the same descriptor. *)
Theorem read_eof_or_bad (buffer : list byte) (len : Z) (s : Socket) (w : World) :
  let r := os (trace w) (sys_read (_sd s) len) in
  (ret r = 0 /\ 0 < len) \/ ret r = -1 ->
  let '(s', _, w') := read buffer len s w in
  (if ret r =? 0 then eof s' else bad s') = true /\
  _errno s' = err r /\ errno w' = err r /\ _sd s' = _sd s.
Proof.
  intros r H. unfold read. os_step. fold r.
  destruct H as [[H0 Hlen] | Hm1]; [rewrite H0 | rewrite Hm1].
  - apply Z.ltb_lt in Hlen. rewrite Hlen.
    change (0 =? -1) with false. change (0 =? 0) with true. cbn [andb].
    repeat split. unfold eof. now apply has_flag_setstate.
  - change (-1 =? 0) with false. change (-1 =? -1) with true. cbn [andb].
    repeat split. unfold bad. now apply has_flag_setstate.
Qed.

(** C10. Take a system on which [setsockopt] fails on the descriptor -1.
    When the status is not good (the [accept] call is skipped) or the
    [accept] call returns -1, the socket that [accept()] returns has
    [_sd == -1], so [isOpen()] is false, and has [failbit] set. *)
Theorem accept_failure_unbound (s : Socket) (w : World) :
  (forall h, ret (os h (sys_setsockopt (-1))) = -1) ->
  good s = false \/ ret (os (trace w) (sys_accept (_sd s))) = -1 ->
  let '(_, peer, _) := accept s w in
  _sd peer = -1 /\ isOpen peer = false /\ has_flag failbit peer = true.
Proof.
  intros Hopt Hacc.
  assert (Hpeer : forall w0, let (p, _) := Socket_sd (-1) w0 in
            _sd p = -1 /\ isOpen p = false /\ has_flag failbit p = true).
  { intros w0. rewrite (Socket_sd_failure (-1) w0 (Hopt _)).
    pose proof (close_failed_socket
                  (setstate failbit (mk_Socket (-1) 0 goodbit))
                  (snd (call (sys_setsockopt (-1)) w0))
                  (has_flag_setstate failbit _ ltac:(discriminate))) as Hc.
    match type of Hc with context [close ?s0 ?w1] =>
      destruct (close s0 w1) as [p w'] end.
    destruct Hc as (_ & Hsd & Hf).
    unfold isOpen. cbn [_sd with_errno]. rewrite Hsd. repeat split. exact Hf. }
  assert (Hsd : fst (if good s
                     then (ret (os (trace w) (sys_accept (_sd s))),
                           snd (call (sys_accept (_sd s)) w))
                     else (-1, w)) = -1).
  { destruct (good s); [ | reflexivity].
    destruct Hacc as [Hacc | Hacc]; [discriminate | exact Hacc]. }
  unfold accept. os_step.
  destruct (good s); os_step; cbn [fst] in Hsd; try rewrite Hsd;
    match goal with |- context [Socket_sd (-1) ?w0] =>
      specialize (Hpeer w0); destruct (Socket_sd (-1) w0) end;
    exact Hpeer.
Qed.

(** The move constructor copies the descriptor and writes nothing to its
    argument. *)
Lemma Socket_move_shares (other : Socket) :
  let (new, other') := Socket_move other in
  _sd new = _sd other' /\ other' = other /\ isOpen new = isOpen other.
Proof. unfold Socket_move, isOpen. cbn. auto. Qed.

(** [strToAddr] reports failure only for the return value -1; for a string
    that [inet_pton] does not recognise (return value 0) it reports
    success and hands back the address 0. *)
Lemma strToAddr_unrecognised (addrstr : string) (buffer : Z) (w : World) :
  ret (os (trace w) (sys_inet_pton addrstr)) = 0 ->
  fst (strToAddr addrstr buffer w) = (true, 0).
Proof.
  intros H. unfold strToAddr. os_step. rewrite H. reflexivity.
Qed.

(* ================================================================== *)
(** ** No member function clears a status bit *)

Lemma listen_keeps_bits (port addr count : Z) (s : Socket) (w : World) :
  keeps_bits s (fst (listen port addr count s w)).
Proof. unfold listen. os_step. repeat (case_if; os_step). all: keeps. Qed.

Lemma connect_keeps_bits (port addr : Z) (s : Socket) (w : World) :
  keeps_bits s (fst (connect port addr s w)).
Proof. unfold connect. os_step. repeat (case_if; os_step). all: keeps. Qed.

Lemma listen_str_keeps_bits (port : Z) (addrstr : string) (count : Z)
    (s : Socket) (w : World) :
  keeps_bits s (fst (listen_str port addrstr count s w)).
Proof.
  unfold listen_str. os_step.
  destruct (strToAddr addrstr 0 w) as [[ok addr] w1].
  eapply keeps_bits_trans; [ | apply listen_keeps_bits ].
  destruct ok; cbn [negb]; keeps.
Qed.

Lemma connect_str_keeps_bits (port : Z) (addrstr : string)
    (s : Socket) (w : World) :
  keeps_bits s (fst (connect_str port addrstr s w)).
Proof.
  unfold connect_str. os_step.
  destruct (strToAddr addrstr 0 w) as [[ok addr] w1].
  eapply keeps_bits_trans; [ | apply connect_keeps_bits ].
  destruct ok; cbn [negb]; keeps.
Qed.

Lemma accept_keeps_bits (s : Socket) (w : World) :
  keeps_bits s (fst (fst (accept s w))).
Proof.
  unfold accept. os_step. case_if; os_step.
  all: match goal with |- context [Socket_sd ?sd ?w0] =>
         destruct (Socket_sd sd w0) end.
  all: keeps.
Qed.

Lemma errcode_keeps_bits (s : Socket) (w : World) :
  keeps_bits s (fst (fst (errcode s w))).
Proof. unfold errcode. os_step. repeat (case_if; os_step). all: keeps. Qed.

Lemma strerror_keeps_bits (s : Socket) (w : World) :
  keeps_bits s (fst (fst (strerror s w))).
Proof.
  unfold strerror. os_step.
  pose proof (errcode_keeps_bits s w) as H.
  destruct (errcode s w) as [[s1 code] w1]. exact H.
Qed.

Lemma read_keeps_bits (buffer : list byte) (len : Z) (s : Socket) (w : World) :
  keeps_bits s (fst (fst (read buffer len s w))).
Proof. unfold read. os_step. keeps. Qed.

Lemma write_keeps_bits (buffer : list byte) (len : Z) (s : Socket) (w : World) :
  keeps_bits s (fst (write buffer len s w)).
Proof. unfold write. os_step. keeps. Qed.

Lemma info_keeps_bits (s : Socket) (w : World) :
  keeps_bits s (fst (fst (info s w))).
Proof. unfold info. os_step. repeat (case_if; os_step). all: keeps. Qed.

Lemma peerinfo_keeps_bits (s : Socket) (w : World) :
  keeps_bits s (fst (fst (peerinfo s w))).
Proof. unfold peerinfo. os_step. repeat (case_if; os_step). all: keeps. Qed.

Lemma localinfo_keeps_bits (s : Socket) (w : World) :
  keeps_bits s (fst (fst (localinfo s w))).
Proof.
  unfold localinfo. os_step.
  destruct (Socket_new w) as [local w1].
  destruct (connect 0 INADDR_LOOPBACK local w1) as [local1 w2].
  os_step. case_if; os_step.
  all: match goal with |- context [Socket_dtor ?l ?w0] =>
         destruct (Socket_dtor l w0) end.
  all: keeps.
Qed.

Lemma read_while_keeps_bits (fuel : nat) :
  forall delim c buffer s w s' c' buffer' w',
    read_while fuel delim c buffer s w = Some (s', c', buffer', w') ->
    keeps_bits s s'.
Proof.
  induction fuel as [ | fuel IH]; intros delim c buffer s w s' c' buffer' w' H.
  - discriminate.
  - cbn [read_while] in H.
    pose proof (read_keeps_bits [c] 1 s w) as Hr.
    destruct (read [c] 1 s w) as [[s1 cbuf] w1]. cbn [fst] in Hr.
    destruct (to_bool s1 && negb (Byte.eqb (hd c cbuf) delim)
              && negb (Byte.eqb (hd c cbuf) x00)).
    + apply IH in H. now apply keeps_bits_trans with s1.
    + now inversion H; subst.
Qed.

Lemma getline_keeps_bits (fuel : nat) :
  forall delim buffer s w s' buffer' w',
    getline fuel delim buffer s w = Some (s', buffer', w') ->
    keeps_bits s s'.
Proof.
  induction fuel as [ | fuel IH]; intros delim buffer s w s' buffer' w' H.
  - discriminate.
  - cbn [getline] in H.
    destruct (read_while (S fuel) delim xff [] s w)
      as [[[[s1 c1] b1] w1] | ] eqn:Hloop; [ | discriminate].
    apply read_while_keeps_bits in Hloop.
    destruct (Byte.eqb c1 x00).
    + apply IH in H. now apply keeps_bits_trans with s1.
    + now inversion H; subst.
Qed.

Lemma run_op_keeps_bits (fuel : nat) (o : op) (s : Socket) (w : World)
    (s' : Socket) (w' : World) :
  run_op fuel o s w = Some (s', w') -> keeps_bits s s'.
Proof.
  assert (direct : forall m : Socket * World,
            keeps_bits s (fst m) -> Some m = Some (s', w') -> keeps_bits s s').
  { intros m K E. inversion E; subst. exact K. }
  assert (paired : forall (A : Type) (m : Socket * A * World),
            keeps_bits s (fst (fst m)) ->
            (let '(this, _, w0) := m in Some (this, w0)) = Some (s', w') ->
            keeps_bits s s').
  { intros A [[s1 a] w1] K E. inversion E; subst. exact K. }
  destruct o; cbn [run_op]; intros H.
  - exact (direct _ (listen_keeps_bits port addr count s w) H).
  - exact (direct _ (listen_str_keeps_bits port addrstr count s w) H).
  - exact (paired _ _ (accept_keeps_bits s w) H).
  - exact (direct _ (connect_keeps_bits port addr s w) H).
  - exact (direct _ (connect_str_keeps_bits port addrstr s w) H).
  - exact (direct _ (close_keeps_bits s w) H).
  - inversion H; subst. apply keeps_bits_refl.
  - exact (paired _ _ (errcode_keeps_bits s w) H).
  - exact (paired _ _ (strerror_keeps_bits s w) H).
  - exact (paired _ _ (read_keeps_bits buffer len s w) H).
  - destruct (getline fuel delim buffer s w) as [[[s1 b1] w1] | ] eqn:G;
      [ | discriminate].
    apply getline_keeps_bits in G. now inversion H; subst.
  - exact (direct _ (write_keeps_bits buffer len s w) H).
  - exact (paired _ _ (info_keeps_bits s w) H).
  - exact (paired _ _ (peerinfo_keeps_bits s w) H).
  - exact (paired _ _ (localinfo_keeps_bits s w) H).
Qed.

Lemma run_ops_keeps_bits (fuel : nat) (ops : list op) :
  forall s w s' w',
    run_ops fuel ops s w = Some (s', w') -> keeps_bits s s'.
Proof.
  induction ops as [ | o ops IH]; intros s w s' w' H; cbn [run_ops] in H.
  - inversion H; subst. apply keeps_bits_refl.
  - destruct (run_op fuel o s w) as [[s1 w1] | ] eqn:Ho; [ | discriminate].
    apply run_op_keeps_bits in Ho. apply IH in H.
    now apply keeps_bits_trans with s1.
Qed.

(** C7. Along every sequence of calls of the public member functions, a
    condition bit that is set stays set: no call brings [failbit] or
    [badbit] back to zero.  ([close] is among the calls: its
    [setstate(goodbit)] ors nothing in and clears nothing.) *)
Theorem status_bits_never_cleared (fuel : nat) (ops : list op)
    (s : Socket) (w : World) (s' : Socket) (w' : World) :
  run_ops fuel ops s w = Some (s', w') ->
  (has_flag failbit s = true -> has_flag failbit s' = true) /\
  (has_flag badbit s = true -> has_flag badbit s' = true).
Proof.
  intros Hrun. apply run_ops_keeps_bits in Hrun.
  split; apply keeps_bits_has_flag; exact Hrun.
Qed.

(** Only [getline] can fail to return: every other call does, whatever the
    system answers. *)
Lemma run_op_returns (fuel : nat) (o : op) (s : Socket) (w : World) :
  (forall buffer delim, o <> op_getline buffer delim) ->
  exists s' w', run_op fuel o s w = Some (s', w').
Proof.
  intros Hne. destruct o; cbn [run_op];
    try (now eexists; eexists; reflexivity);
    try (now match goal with
             | |- context [Some ?m = Some _] => destruct m
             end; eexists; eexists; reflexivity);
    try (now match goal with
             | |- context [match ?m with (_, _) => _ end] =>
                 destruct m as [[? ?] ?]
             end; eexists; eexists; reflexivity).
  now destruct (Hne buffer delim).
Qed.

(* ================================================================== *)
(** ** [getline] and null bytes *)

(** [buffer.clear()] comes first: what the caller's string held on entry
    plays no part. *)
Lemma getline_clears (fuel : nat) (delim : byte) (buffer : list byte)
    (s : Socket) (w : World) :
  getline fuel delim buffer s w = getline fuel delim [] s w.
Proof. destruct fuel; reflexivity. Qed.

(** C3 (amended). When the loop of [getline] stops on a null byte with
    [pre] gathered in the string, the recursive call is handed that same
    string and clears it on entry: the call returns exactly what
    [getline] returns when started after the null byte on an empty
    string, so the bytes [pre] are not part of the result. *)
Theorem getline_null_restarts (fuel : nat) (delim : byte)
    (buffer pre : list byte) (s s1 : Socket) (w w1 : World) :
  read_while (S fuel) delim xff [] s w = Some (s1, x00, pre, w1) ->
  getline (S fuel) delim buffer s w = getline fuel delim [] s1 w1.
Proof.
  intros Hloop. cbn [getline]. rewrite Hloop.
  change (Byte.eqb x00 x00) with true. cbv iota.
  apply getline_clears.
Qed.

(** *** Lines that the peer really sends *)

Lemma delivers_app (sd : Z) (l1 l2 : list byte) :
  forall h,
    delivers sd h (l1 ++ l2) <->
    delivers sd h l1 /\
    delivers sd (h ++ repeat (sys_read sd 1) (List.length l1)) l2.
Proof.
  induction l1 as [ | b l1 IH]; intros h; cbn [app delivers List.length repeat].
  - rewrite app_nil_r. tauto.
  - rewrite IH, <- app_assoc. cbn [app]. tauto.
Qed.

(** One byte arriving on a socket: [c] receives it, the status word stays. *)
Lemma read_one_byte (c b : byte) (s : Socket) (w : World) :
  ret (os (trace w) (sys_read (_sd s) 1)) = 1 ->
  hd_error (bytes (os (trace w) (sys_read (_sd s) 1))) = Some b ->
  exists s' w',
    read [c] 1 s w = (s', [b], w') /\
    rdstate s' = rdstate s /\ _sd s' = _sd s /\
    trace w' = trace w ++ [sys_read (_sd s) 1].
Proof.
  intros Hret Hb. unfold read. os_step. rewrite Hret.
  destruct (bytes (os (trace w) (sys_read (_sd s) 1))) as [ | b0 l];
    [discriminate | ].
  inversion Hb; subst b0.
  eexists. eexists. split; [reflexivity | ]. repeat split.
Qed.

Lemma eqb_plain (delim b : byte) :
  plain delim b -> Byte.eqb b delim = false /\ Byte.eqb b x00 = false.
Proof.
  intros [Hd H0]. split.
  - destruct (Byte.eqb b delim) eqn:E; [ | reflexivity].
    now apply Byte.byte_dec_bl in E.
  - destruct (Byte.eqb b x00) eqn:E; [ | reflexivity].
    now apply Byte.byte_dec_bl in E.
Qed.

(** The loop on a usable socket: it gathers the plain bytes [line] and
    stops on the byte [t] that follows them, a delimiter or a null. *)
Lemma read_while_line (delim t : byte) (line : list byte) :
  t = delim \/ t = x00 ->
  Forall (plain delim) line ->
  forall fuel c acc s w,
    to_bool s = true ->
    delivers (_sd s) (trace w) (line ++ [t]) ->
    (List.length line < fuel)%nat ->
    exists s' w',
      read_while fuel delim c acc s w = Some (s', t, acc ++ line, w') /\
      rdstate s' = rdstate s /\ _sd s' = _sd s /\
      trace w' =
        trace w ++ repeat (sys_read (_sd s) 1) (S (List.length line)).
Proof.
  intros Ht Hplain. induction Hplain as [ | b line Hb Hline IH];
    intros fuel c acc s w Hs Hin Hfuel;
    (destruct fuel as [ | fuel]; [ cbn in Hfuel; lia | ]);
    cbn [app delivers] in Hin; destruct Hin as (Hret & Hhd & Hrest);
    destruct (read_one_byte c _ s w Hret Hhd) as (s1 & w1 & Hr & Hst & Hsd & Htr);
    cbn [read_while]; rewrite Hr; cbn [hd];
    assert (Hs1 : to_bool s1 = true)
      by (unfold to_bool, fail, has_flag in *; now rewrite Hst).
  - assert (Hstop : negb (Byte.eqb t delim) && negb (Byte.eqb t x00) = false).
    { destruct Ht as [-> | ->].
      - now rewrite (Byte.byte_dec_lb (eq_refl delim)).
      - apply andb_false_intro2. reflexivity. }
    rewrite <- andb_assoc, Hstop, andb_false_r.
    exists s1, w1. rewrite app_nil_r. auto.
  - destruct (eqb_plain _ _ Hb) as [E1 E2]. rewrite Hs1, E1, E2. cbn [negb andb].
    destruct (IH fuel b (acc ++ [b]) s1 w1 Hs1) as (s2 & w2 & Hw & Hst2 & Hsd2 & Htr2).
    + now rewrite Hsd, Htr.
    + cbn [List.length] in Hfuel. lia.
    + exists s2, w2. rewrite Hw, <- app_assoc. cbn [app].
      repeat split; try congruence.
      rewrite Htr2, Htr, Hsd, <- app_assoc. reflexivity.
Qed.

(** A line with a null byte inside, read on a usable socket: [getline]
    returns, and what it returns is the part after the null byte. *)
Lemma getline_after_null (delim : byte) (pre post buffer : list byte)
    (fuel : nat) (s : Socket) (w : World) :
  delim <> x00 ->
  Forall (plain delim) pre -> Forall (plain delim) post ->
  to_bool s = true ->
  delivers (_sd s) (trace w) (pre ++ x00 :: post ++ [delim]) ->
  (2 <= fuel)%nat -> (List.length pre < fuel)%nat ->
  (S (List.length post) < fuel)%nat ->
  exists s' w',
    getline fuel delim buffer s w = Some (s', post, w') /\
    rdstate s' = rdstate s.
Proof.
  intros Hdelim Hpre Hpost Hs Hin Hfuel2 Hfuel_pre Hfuel_post.
  change (pre ++ x00 :: post ++ [delim])
    with (pre ++ [x00] ++ (post ++ [delim])) in Hin.
  rewrite app_assoc in Hin. apply delivers_app in Hin.
  destruct Hin as [Hin1 Hin2].
  rewrite length_app, Nat.add_1_r in Hin2.
  destruct fuel as [ | fuel]; [lia | ]. cbn [getline].
  destruct (read_while_line delim x00 pre (or_intror eq_refl) Hpre
              (S fuel) xff [] s w Hs Hin1 Hfuel_pre)
    as (s1 & w1 & Hloop1 & Hst1 & Hsd1 & Htr1).
  rewrite Hloop1. change (Byte.eqb x00 x00) with true. cbv iota.
  assert (Hs1 : to_bool s1 = true)
    by (unfold to_bool, fail, has_flag in *; now rewrite Hst1).
  destruct fuel as [ | fuel]; [lia | ]. cbn [getline].
  destruct (read_while_line delim delim post (or_introl eq_refl) Hpost
              (S fuel) xff [] s1 w1 Hs1) as (s2 & w2 & Hloop2 & Hst2 & _).
  - now rewrite Hsd1, Htr1.
  - lia.
  - rewrite Hloop2.
    assert (E : Byte.eqb delim x00 = false).
    { destruct (Byte.eqb delim x00) eqn:E; [ | reflexivity].
      now apply Byte.byte_dec_bl in E. }
    rewrite E. exists s2, w2. split; [reflexivity | congruence].
Qed.

(* ================================================================== *)
(** ** Construction, destruction and the descriptor *)

Lemma closes_app (t1 t2 : list syscall) :
  closes (t1 ++ t2) = closes t1 ++ closes t2.
Proof.
  induction t1 as [ | c t1 IH]; [reflexivity | ].
  destruct c; cbn [app closes]; rewrite IH; reflexivity.
Qed.

(** The success path of [Socket(int)]: one [setsockopt] call, the
    descriptor kept, the status good, [errno] captured. *)
Lemma Socket_sd_success (sd : Z) (w : World) :
  ret (os (trace w) (sys_setsockopt sd)) <> -1 ->
  Socket_sd sd w =
  (mk_Socket sd (err (os (trace w) (sys_setsockopt sd))) goodbit,
   snd (call (sys_setsockopt sd) w)).
Proof.
  intros Hok. apply Z.eqb_neq in Hok.
  unfold Socket_sd. os_step. rewrite Hok. reflexivity.
Qed.

(** X1. A socket built by [Socket()] when [socket] hands out a descriptor and
    [setsockopt] accepts it: good, open on that descriptor, after exactly
    these two calls. *)
Theorem default_ctor_success (w : World) :
  let sd := ret (os (trace w) sys_socket) in
  sd <> -1 ->
  ret (os (trace w ++ [sys_socket]) (sys_setsockopt sd)) <> -1 ->
  let (s, w') := Socket_new w in
  good s = true /\ isOpen s = true /\ _sd s = sd /\
  trace w' = trace w ++ [sys_socket; sys_setsockopt sd] /\
  _errno s = errno w'.
Proof.
  intros sd Hsd Hopt. unfold Socket_new. os_step. fold sd.
  match goal with |- context [Socket_sd sd ?w0] =>
    rewrite (Socket_sd_success sd w0 Hopt) end.
  cbn [snd call trace errno _sd _errno]. unfold isOpen. cbn [_sd].
  apply Z.eqb_neq in Hsd. rewrite Hsd, <- app_assoc. repeat split.
Qed.

(** X2. When the system's [close] fails, [close()] sets [failbit] and still
    forgets the descriptor: the object is unbound, after one call. *)
Theorem close_failure_unbinds (s : Socket) (w : World) :
  ret (os (trace w) (sys_close (_sd s))) = -1 ->
  let (s', w') := close s w in
  has_flag failbit s' = true /\ _sd s' = -1 /\ isOpen s' = false /\
  trace w' = trace w ++ [sys_close (_sd s)] /\ _errno s' = errno w'.
Proof.
  intros Hfail. rewrite close_eq, Hfail.
  change (-1 =? -1) with true. cbv iota. repeat split.
  apply has_flag_true. cbn [rdstate].
  apply has_flag_true. now apply has_flag_setstate.
Qed.

(** X3. After [close()], successful or not, the destructor issues no call. *)
Theorem dtor_after_close_silent (s : Socket) (w : World) :
  let (s', w') := close s w in Socket_dtor s' w' = (s', w').
Proof. rewrite close_eq. reflexivity. Qed.

(** X4. A socket built on a descriptor and then destroyed closes that
    descriptor exactly once, and closes nothing else, whatever the system
    answers. *)
Theorem ctor_dtor_closes_once (sd : Z) (w : World) :
  sd <> -1 ->
  let (s, w1) := Socket_sd sd w in
  let (s', w2) := Socket_dtor s w1 in
  closes (trace w2) = closes (trace w) ++ [sd] /\ isOpen s' = false.
Proof.
  intros Hsd.
  destruct (Z.eq_dec (ret (os (trace w) (sys_setsockopt sd))) (-1)) as [Hf | Hok].
  - rewrite (Socket_sd_failure sd w Hf), close_eq.
    cbn [snd call trace errno]. unfold Socket_dtor, isOpen.
    cbn [_sd with_errno with_rdstate setstate clear].
    change (-1 =? -1) with true. cbn [negb]. unfold retM.
    cbn [trace _sd with_errno].
    rewrite !closes_app. cbn [closes]. rewrite app_nil_r.
    split; reflexivity.
  - rewrite (Socket_sd_success sd w Hok). unfold Socket_dtor, isOpen.
    cbn [_sd]. apply Z.eqb_neq in Hsd. rewrite Hsd. cbn [negb].
    rewrite close_eq. cbn [snd call trace _sd].
    rewrite !closes_app. cbn [closes]. rewrite app_nil_r.
    split; reflexivity.
Qed.

(* ================================================================== *)
(** ** [listen], [connect] and [accept] *)

Lemma good_with_errno (s : Socket) (e : Z) : good (with_errno s e) = good s.
Proof. reflexivity. Qed.

(** X5. The socket is good after [listen] exactly when it was good before and
    both [bind] and the system's [listen] succeeded. *)
Theorem listen_good_iff (port addr count : Z) (s : Socket) (w : World) :
  let b := sys_bind (_sd s) (mk_sockaddr_in AF_INET port addr) in
  let l := sys_listen (_sd s) count in
  let (s', w') := listen port addr count s w in
  good s' = good s && negb (ret (os (trace w) b) =? -1)
                   && negb (ret (os (trace w ++ [b]) l) =? -1) /\
  _sd s' = _sd s /\ _errno s' = errno w'.
Proof.
  unfold listen. os_step.
  assert (Hg : good (setstate failbit s) = false) by now apply good_setstate.
  destruct (good s) eqn:Hgood; cbn [andb]; os_step.
  - destruct (ret (os (trace w) (sys_bind (_sd s) _)) =? -1) eqn:Hb;
      cbn [negb andb].
    + rewrite Hg. os_step. rewrite good_with_errno. auto.
    + rewrite Hgood. os_step. rewrite good_with_errno.
      case_if; cbn [negb]; auto.
  - rewrite Hgood. os_step. rewrite good_with_errno. auto.
Qed.

(** The calls of [connect] and its descriptor. *)
Lemma connect_trace (port addr : Z) (s : Socket) (w : World) :
  let c := sys_connect (_sd s) (mk_sockaddr_in AF_INET port addr) in
  let (s', w') := connect port addr s w in
  trace w' = trace w ++ (if good s then [c] else []) /\ _sd s' = _sd s.
Proof.
  unfold connect. os_step. destruct (good s); os_step.
  - split; [reflexivity | ]. now case_if.
  - rewrite app_nil_r. split; reflexivity.
Qed.

(** The success paths of [Socket()], [listen], [connect] and [accept]. *)
Lemma Socket_new_success (w : World) :
  let sd := ret (os (trace w) sys_socket) in
  let r := os (trace w ++ [sys_socket]) (sys_setsockopt sd) in
  ret r <> -1 ->
  Socket_new w =
  (mk_Socket sd (err r) goodbit,
   mk_World (trace w ++ [sys_socket; sys_setsockopt sd]) (err r)
     (info_st w) (peerinfo_st w) (localinfo_st w)).
Proof.
  intros sd r Hopt. unfold Socket_new. os_step. fold sd.
  match goal with |- context [Socket_sd sd ?w0] =>
    rewrite (Socket_sd_success sd w0 Hopt) end.
  cbn [snd call trace info_st peerinfo_st localinfo_st].
  now rewrite <- app_assoc.
Qed.

Lemma listen_success (port addr count : Z) (s : Socket) (w : World) :
  let b := sys_bind (_sd s) (mk_sockaddr_in AF_INET port addr) in
  let l := sys_listen (_sd s) count in
  good s = true ->
  ret (os (trace w) b) <> -1 ->
  ret (os (trace w ++ [b]) l) <> -1 ->
  listen port addr count s w =
  (with_errno s (err (os (trace w ++ [b]) l)),
   mk_World (trace w ++ [b; l]) (err (os (trace w ++ [b]) l))
     (info_st w) (peerinfo_st w) (localinfo_st w)).
Proof.
  intros b l Hgood Hb Hl. apply Z.eqb_neq in Hb. apply Z.eqb_neq in Hl.
  unfold listen. os_step. rewrite Hgood. os_step. fold b. rewrite Hb, Hgood.
  os_step. fold l. rewrite Hl. now rewrite <- app_assoc.
Qed.

Lemma connect_success (port addr : Z) (s : Socket) (w : World) :
  let c := sys_connect (_sd s) (mk_sockaddr_in AF_INET port addr) in
  good s = true ->
  ret (os (trace w) c) <> -1 ->
  connect port addr s w =
  (with_errno s (err (os (trace w) c)),
   mk_World (trace w ++ [c]) (err (os (trace w) c))
     (info_st w) (peerinfo_st w) (localinfo_st w)).
Proof.
  intros c Hgood Hc. apply Z.eqb_neq in Hc.
  unfold connect. os_step. rewrite Hgood. os_step. fold c. now rewrite Hc.
Qed.

Lemma accept_success_eq (s : Socket) (w : World) :
  let a := sys_accept (_sd s) in
  let sd := ret (os (trace w) a) in
  let r := os (trace w ++ [a]) (sys_setsockopt sd) in
  good s = true ->
  ret r <> -1 ->
  accept s w =
  (with_errno s (err (os (trace w) a)), mk_Socket sd (err r) goodbit,
   mk_World (trace w ++ [a; sys_setsockopt sd]) (err r)
     (info_st w) (peerinfo_st w) (localinfo_st w)).
Proof.
  intros a sd r Hgood Hopt. unfold accept. os_step. rewrite Hgood. os_step.
  fold a. fold sd.
  match goal with |- context [Socket_sd sd ?w0] =>
    rewrite (Socket_sd_success sd w0 Hopt) end.
  cbn [snd call trace info_st peerinfo_st localinfo_st].
  now rewrite <- app_assoc.
Qed.

(** X6. [connect] issues the system's [connect] exactly when the status is
    good; the socket is good afterwards exactly when it was good and the
    call succeeded.  A failed [connect] leaves the descriptor as it was:
    the socket stays open. *)
Theorem connect_outcome (port addr : Z) (s : Socket) (w : World) :
  let c := sys_connect (_sd s) (mk_sockaddr_in AF_INET port addr) in
  let (s', w') := connect port addr s w in
  trace w' = trace w ++ (if good s then [c] else []) /\
  good s' = good s && negb (ret (os (trace w) c) =? -1) /\
  _sd s' = _sd s /\ _errno s' = errno w'.
Proof.
  unfold connect. os_step.
  assert (Hg : good (setstate failbit s) = false) by now apply good_setstate.
  destruct (good s) eqn:Hgood; cbn [andb]; os_step.
  - case_if; cbn [negb]; rewrite good_with_errno; auto.
  - rewrite good_with_errno, app_nil_r. auto.
Qed.

(** X7. When [inet_pton] converts the string (returns 1), the string overloads
    are the value overloads on the converted address, run after that
    call. *)
Theorem str_overloads_converted (port count : Z) (addrstr : string)
    (s : Socket) (w : World) :
  let r := os (trace w) (sys_inet_pton addrstr) in
  ret r = 1 ->
  listen_str port addrstr count s w =
    listen port (val r) count s (snd (call (sys_inet_pton addrstr) w)) /\
  connect_str port addrstr s w =
    connect port (val r) s (snd (call (sys_inet_pton addrstr) w)).
Proof.
  intros r Hr. unfold listen_str, connect_str, strToAddr. os_step.
  fold r. rewrite Hr. split; reflexivity.
Qed.

(** X8. When [inet_pton] returns -1, the string overloads set [failbit] and
    stop there: no [bind], [listen] or [connect] call follows. *)
Theorem str_overloads_conversion_error (port count : Z) (addrstr : string)
    (s : Socket) (w : World) :
  ret (os (trace w) (sys_inet_pton addrstr)) = -1 ->
  (let (s', w') := listen_str port addrstr count s w in
   has_flag failbit s' = true /\
   trace w' = trace w ++ [sys_inet_pton addrstr]) /\
  (let (s', w') := connect_str port addrstr s w in
   has_flag failbit s' = true /\
   trace w' = trace w ++ [sys_inet_pton addrstr]).
Proof.
  intros Hr.
  assert (Hf : has_flag failbit (setstate failbit s) = true)
    by now apply has_flag_setstate.
  assert (Hg : good (setstate failbit s) = false) by now apply good_setstate.
  unfold listen_str, connect_str, strToAddr, listen, connect. os_step.
  rewrite Hr. change (-1 =? -1) with true. change (-1 =? 1) with false.
  os_step. cbn [negb]. rewrite Hg. os_step. rewrite Hg. os_step.
  repeat split; exact Hf.
Qed.

(** X9. [accept] never touches the status word or the descriptor of the
    listening socket, not even when the system's [accept] fails. *)
Theorem accept_receiver_untouched (s : Socket) (w : World) :
  let '(s', _, _) := accept s w in
  rdstate s' = rdstate s /\ _sd s' = _sd s.
Proof.
  unfold accept. os_step. destruct (good s); os_step;
    match goal with |- context [Socket_sd ?sd ?w0] =>
      destruct (Socket_sd sd w0) end; split; reflexivity.
Qed.

(** X10. On a good listening socket, when [setsockopt] accepts the descriptor
    that the system's [accept] returned, [accept()] returns a good socket
    on that descriptor, after exactly these two calls. *)
Theorem accept_success (s : Socket) (w : World) :
  let a := sys_accept (_sd s) in
  let sd := ret (os (trace w) a) in
  good s = true ->
  ret (os (trace w ++ [a]) (sys_setsockopt sd)) <> -1 ->
  let '(s', peer, w') := accept s w in
  _sd peer = sd /\ good peer = true /\
  trace w' = trace w ++ [a; sys_setsockopt sd] /\
  _errno s' = err (os (trace w) a).
Proof.
  intros a sd Hgood Hopt. unfold accept. os_step. rewrite Hgood. os_step.
  fold a. fold sd.
  match goal with |- context [Socket_sd sd ?w0] =>
    rewrite (Socket_sd_success sd w0 Hopt) end.
  cbn [snd call trace]. rewrite <- app_assoc. repeat split.
Qed.

(* ================================================================== *)
(** ** [errcode], [read], [write] and the address queries *)

(** X12. Once [errcode] has returned a non-zero code, calling it again returns
    the same code and touches nothing: no system call, no change to the
    object. *)
Theorem errcode_cached (s s1 : Socket) (w w1 : World) (code : Z) :
  errcode s w = (s1, code, w1) -> code <> 0 ->
  errcode s1 w1 = (s1, code, w1).
Proof.
  intros H Hcode.
  assert (Hs1 : _errno s1 = code).
  { unfold errcode in H. revert H. os_step.
    destruct (_errno s =? 0); cbn [negb]; intros H; inversion H; reflexivity. }
  unfold errcode. os_step. rewrite Hs1.
  apply Z.eqb_neq in Hcode. rewrite Hcode. reflexivity.
Qed.

(** X13. With no error code captured, [errcode] probes with [getsockopt]; when
    that call itself fails, [errcode] sets [failbit] but returns 0, and
    caches nothing. *)
Theorem errcode_probe_failure (s : Socket) (w : World) :
  _errno s = 0 ->
  ret (os (trace w) (sys_getsockopt (_sd s))) = -1 ->
  let '(s', code, w') := errcode s w in
  code = 0 /\ _errno s' = 0 /\ has_flag failbit s' = true /\
  trace w' = trace w ++ [sys_getsockopt (_sd s)].
Proof.
  intros He Hr. unfold errcode. rewrite He.
  change (negb (0 =? 0)) with false. cbv iota. os_step. rewrite Hr.
  change (-1 =? -1) with true. cbv iota. repeat split. change (has_flag failbit (setstate failbit s) = true).
  now apply has_flag_setstate.
Qed.

(** X14. [read] leaves the status word alone unless the system's [read]
    returned -1, or returned 0 for a positive [len]: a read of some bytes,
    however few, and a zero-length read raise no bit. *)
Theorem read_quiet (buffer : list byte) (len : Z) (s : Socket) (w : World) :
  let r := os (trace w) (sys_read (_sd s) len) in
  ret r <> -1 -> ret r <> 0 \/ len <= 0 ->
  let '(s', _, w') := read buffer len s w in
  rdstate s' = rdstate s /\ _sd s' = _sd s /\
  trace w' = trace w ++ [sys_read (_sd s) len].
Proof.
  intros r Hm1 H0. unfold read. os_step. fold r.
  apply Z.eqb_neq in Hm1. rewrite Hm1.
  assert (E : (ret r =? 0) && (0 <? len) = false).
  { destruct H0 as [H0 | H0].
    - apply Z.eqb_neq in H0. now rewrite H0.
    - apply andb_false_intro2. now apply Z.ltb_ge. }
  rewrite E. repeat split.
Qed.

(** X15. [write] issues one [write] call whatever the status.  It sets
    [badbit] when the call returned -1, or 0 for a positive [len];
    otherwise the status word is unchanged, also when fewer bytes were
    written than asked for. *)
Theorem write_outcome (buffer : list byte) (len : Z) (s : Socket) (w : World) :
  let r := os (trace w) (sys_write (_sd s) buffer len) in
  let (s', w') := write buffer len s w in
  trace w' = trace w ++ [sys_write (_sd s) buffer len] /\
  (if ((ret r =? 0) && (0 <? len)) || (ret r =? -1)
   then bad s' = true
   else rdstate s' = rdstate s) /\
  _sd s' = _sd s /\ _errno s' = errno w'.
Proof.
  unfold write. os_step.
  split; [reflexivity | ]. split; [ | split; case_if; reflexivity ].
  case_if; [ | reflexivity ].
  unfold bad. now apply has_flag_setstate.
Qed.

Lemma info_success (s : Socket) (w : World) :
  let r := os (trace w) (sys_getsockname (_sd s)) in
  ret r <> -1 ->
  info s w =
  (s, sa r, mk_World (trace w ++ [sys_getsockname (_sd s)]) (err r)
              (sa r) (peerinfo_st w) (localinfo_st w)).
Proof.
  intros r H. apply Z.eqb_neq in H. unfold info. os_step. fold r.
  rewrite H. reflexivity.
Qed.

Lemma info_failure (s : Socket) (w : World) :
  let r := os (trace w) (sys_getsockname (_sd s)) in
  ret r = -1 ->
  info s w =
  (setstate failbit s, info_st w,
   mk_World (trace w ++ [sys_getsockname (_sd s)]) (err r)
     (info_st w) (peerinfo_st w) (localinfo_st w)).
Proof.
  intros r H. unfold info. os_step. fold r. rewrite H. reflexivity.
Qed.

Lemma peerinfo_success (s : Socket) (w : World) :
  let r := os (trace w) (sys_getpeername (_sd s)) in
  ret r <> -1 ->
  peerinfo s w =
  (s, sa r, mk_World (trace w ++ [sys_getpeername (_sd s)]) (err r)
              (info_st w) (sa r) (localinfo_st w)).
Proof.
  intros r H. apply Z.eqb_neq in H. unfold peerinfo. os_step. fold r.
  rewrite H. reflexivity.
Qed.

Lemma peerinfo_failure (s : Socket) (w : World) :
  let r := os (trace w) (sys_getpeername (_sd s)) in
  ret r = -1 ->
  peerinfo s w =
  (setstate failbit s, peerinfo_st w,
   mk_World (trace w ++ [sys_getpeername (_sd s)]) (err r)
     (info_st w) (peerinfo_st w) (localinfo_st w)).
Proof.
  intros r H. unfold peerinfo. os_step. fold r. rewrite H. reflexivity.
Qed.

(** X16. [info] and [peerinfo] answer from a [static] buffer that only a
    successful query overwrites: a query that fails right after one that
    succeeded sets [failbit] and hands back the earlier address. *)
Theorem address_queries_stale (s : Socket) (w : World) :
  let g := sys_getsockname (_sd s) in
  let p := sys_getpeername (_sd s) in
  ret (os (trace w) g) <> -1 -> ret (os (trace w ++ [g]) g) = -1 ->
  ret (os (trace w) p) <> -1 -> ret (os (trace w ++ [p]) p) = -1 ->
  (let '(s1, a1, w1) := info s w in
   let '(s2, a2, w2) := info s1 w1 in
   a1 = sa (os (trace w) g) /\ a2 = a1 /\
   rdstate s1 = rdstate s /\ has_flag failbit s2 = true) /\
  (let '(s1, a1, w1) := peerinfo s w in
   let '(s2, a2, w2) := peerinfo s1 w1 in
   a1 = sa (os (trace w) p) /\ a2 = a1 /\
   rdstate s1 = rdstate s /\ has_flag failbit s2 = true).
Proof.
  intros g p Hg1 Hg2 Hp1 Hp2.
  rewrite (info_success s w Hg1), (peerinfo_success s w Hp1).
  rewrite info_failure by exact Hg2.
  rewrite peerinfo_failure by exact Hp2.
  cbn [info_st peerinfo_st].
  repeat split; now apply has_flag_setstate.
Qed.

(** The descriptor of an object is never replaced: a member function
    either keeps it or (in [close]) sets it to -1. *)
Definition sd_kept_or_dropped (old new : Socket) : Prop :=
  _sd new = _sd old \/ _sd new = -1.

Lemma sd_kept_or_dropped_trans (a b c : Socket) :
  sd_kept_or_dropped a b -> sd_kept_or_dropped b c -> sd_kept_or_dropped a c.
Proof. unfold sd_kept_or_dropped. intuition congruence. Qed.

Ltac sd_same :=
  os_step; repeat (case_if; os_step);
  cbn [fst snd _sd setstate clear with_rdstate with_errno with_sd];
  reflexivity.

Lemma listen_sd (port addr count : Z) (s : Socket) (w : World) :
  _sd (fst (listen port addr count s w)) = _sd s.
Proof. unfold listen. sd_same. Qed.

Lemma connect_sd (port addr : Z) (s : Socket) (w : World) :
  _sd (fst (connect port addr s w)) = _sd s.
Proof. unfold connect. sd_same. Qed.

Lemma listen_str_sd (port : Z) (addrstr : string) (count : Z)
    (s : Socket) (w : World) :
  _sd (fst (listen_str port addrstr count s w)) = _sd s.
Proof.
  unfold listen_str. os_step.
  destruct (strToAddr addrstr 0 w) as [[ok addr] w1].
  rewrite listen_sd. now destruct ok.
Qed.

Lemma connect_str_sd (port : Z) (addrstr : string) (s : Socket) (w : World) :
  _sd (fst (connect_str port addrstr s w)) = _sd s.
Proof.
  unfold connect_str. os_step.
  destruct (strToAddr addrstr 0 w) as [[ok addr] w1].
  rewrite connect_sd. now destruct ok.
Qed.

Lemma errcode_sd (s : Socket) (w : World) :
  _sd (fst (fst (errcode s w))) = _sd s.
Proof. unfold errcode. sd_same. Qed.

Lemma strerror_sd (s : Socket) (w : World) :
  _sd (fst (fst (strerror s w))) = _sd s.
Proof.
  unfold strerror. os_step. pose proof (errcode_sd s w) as H.
  destruct (errcode s w) as [[s1 code] w1]. exact H.
Qed.

Lemma read_sd (buffer : list byte) (len : Z) (s : Socket) (w : World) :
  _sd (fst (fst (read buffer len s w))) = _sd s.
Proof. unfold read. sd_same. Qed.

Lemma write_sd (buffer : list byte) (len : Z) (s : Socket) (w : World) :
  _sd (fst (write buffer len s w)) = _sd s.
Proof. unfold write. sd_same. Qed.

Lemma info_sd (s : Socket) (w : World) : _sd (fst (fst (info s w))) = _sd s.
Proof. unfold info. sd_same. Qed.

Lemma peerinfo_sd (s : Socket) (w : World) :
  _sd (fst (fst (peerinfo s w))) = _sd s.
Proof. unfold peerinfo. sd_same. Qed.

Lemma accept_sd (s : Socket) (w : World) :
  _sd (fst (fst (accept s w))) = _sd s.
Proof.
  unfold accept. os_step. destruct (good s); os_step;
    match goal with |- context [Socket_sd ?sd ?w0] =>
      destruct (Socket_sd sd w0) end; reflexivity.
Qed.

Lemma localinfo_receiver (s : Socket) (w : World) :
  let '(s', _, _) := localinfo s w in
  _sd s' = _sd s /\ _errno s' = _errno s.
Proof.
  unfold localinfo. os_step.
  destruct (Socket_new w) as [local w1].
  destruct (connect 0 INADDR_LOOPBACK local w1) as [local1 w2].
  os_step. case_if; os_step;
    match goal with |- context [Socket_dtor ?l ?w0] =>
      destruct (Socket_dtor l w0) end; split; reflexivity.
Qed.

Lemma read_while_sd (fuel : nat) :
  forall delim c buffer s w s' c' buffer' w',
    read_while fuel delim c buffer s w = Some (s', c', buffer', w') ->
    _sd s' = _sd s.
Proof.
  induction fuel as [ | fuel IH]; intros delim c buffer s w s' c' buffer' w' H.
  - discriminate.
  - cbn [read_while] in H.
    pose proof (read_sd [c] 1 s w) as Hr.
    destruct (read [c] 1 s w) as [[s1 cbuf] w1]. cbn [fst] in Hr.
    case_if_in H.
    + apply IH in H. congruence.
    + inversion H; subst. exact Hr.
Qed.

Lemma getline_sd (fuel : nat) :
  forall delim buffer s w s' buffer' w',
    getline fuel delim buffer s w = Some (s', buffer', w') ->
    _sd s' = _sd s.
Proof.
  induction fuel as [ | fuel IH]; intros delim buffer s w s' buffer' w' H.
  - discriminate.
  - cbn [getline] in H.
    destruct (read_while (S fuel) delim xff [] s w)
      as [[[[s1 c1] b1] w1] | ] eqn:Hloop; [ | discriminate].
    apply read_while_sd in Hloop.
    destruct (Byte.eqb c1 x00).
    + apply IH in H. congruence.
    + inversion H; subst. exact Hloop.
Qed.

Lemma run_op_sd (fuel : nat) (o : op) (s : Socket) (w : World)
    (s' : Socket) (w' : World) :
  run_op fuel o s w = Some (s', w') -> sd_kept_or_dropped s s'.
Proof.
  assert (direct : forall m : Socket * World,
            _sd (fst m) = _sd s -> Some m = Some (s', w') ->
            sd_kept_or_dropped s s').
  { intros m K E. inversion E; subst. now left. }
  assert (paired : forall (A : Type) (m : Socket * A * World),
            _sd (fst (fst m)) = _sd s ->
            (let '(this, _, w0) := m in Some (this, w0)) = Some (s', w') ->
            sd_kept_or_dropped s s').
  { intros A [[s1 a] w1] K E. inversion E; subst. now left. }
  destruct o; cbn [run_op]; intros H.
  - exact (direct _ (listen_sd port addr count s w) H).
  - exact (direct _ (listen_str_sd port addrstr count s w) H).
  - exact (paired _ _ (accept_sd s w) H).
  - exact (direct _ (connect_sd port addr s w) H).
  - exact (direct _ (connect_str_sd port addrstr s w) H).
  - rewrite close_eq in H. inversion H; subst. now right.
  - inversion H; subst. now left.
  - exact (paired _ _ (errcode_sd s w) H).
  - exact (paired _ _ (strerror_sd s w) H).
  - exact (paired _ _ (read_sd buffer len s w) H).
  - destruct (getline fuel delim buffer s w) as [[[s1 b1] w1] | ] eqn:G;
      [ | discriminate].
    apply getline_sd in G. inversion H; subst. now left.
  - exact (direct _ (write_sd buffer len s w) H).
  - exact (paired _ _ (info_sd s w) H).
  - exact (paired _ _ (peerinfo_sd s w) H).
  - pose proof (localinfo_receiver s w) as K.
    destruct (localinfo s w) as [[s1 a] w1]. inversion H; subst.
    left. tauto.
Qed.

(** X18. Along every sequence of public calls the object either still holds
    the descriptor it started with or holds none: no call binds it to
    another descriptor, and a socket that is not open never becomes open
    again. *)
Theorem descriptor_never_rebound (fuel : nat) (ops : list op) :
  forall s w s' w',
    run_ops fuel ops s w = Some (s', w') ->
    (_sd s' = _sd s \/ _sd s' = -1) /\
    (isOpen s = false -> isOpen s' = false).
Proof.
  assert (R : forall s w s' w',
            run_ops fuel ops s w = Some (s', w') -> sd_kept_or_dropped s s').
  { induction ops as [ | o ops IH]; intros s w s' w' H; cbn [run_ops] in H.
    - inversion H; subst. now left.
    - destruct (run_op fuel o s w) as [[s1 w1] | ] eqn:Ho; [ | discriminate].
      apply run_op_sd in Ho. apply IH in H.
      now apply sd_kept_or_dropped_trans with s1. }
  intros s w s' w' H. apply R in H. split; [exact H | ].
  unfold isOpen. rewrite !negb_false_iff, !Z.eqb_eq.
  destruct H as [H | H]; congruence.
Qed.

(* ================================================================== *)
(** ** The temporary socket of [localinfo] *)

Lemma Socket_sd_closes (sd : Z) (w : World) :
  sd <> -1 ->
  let (local, w1) := Socket_sd sd w in
  closes (trace w1) =
    closes (trace w) ++ (if isOpen local then [] else [sd]) /\
  (isOpen local = true -> _sd local = sd).
Proof.
  intros Hsd.
  destruct (Z.eq_dec (ret (os (trace w) (sys_setsockopt sd))) (-1)) as [Hf | Hok].
  - rewrite (Socket_sd_failure sd w Hf), close_eq.
    cbn [snd call trace errno]. unfold isOpen.
    cbn [_sd with_errno with_rdstate setstate clear trace].
    change (-1 =? -1) with true. cbn [negb].
    rewrite !closes_app. cbn [closes]. rewrite app_nil_r.
    split; [reflexivity | discriminate].
  - rewrite (Socket_sd_success sd w Hok). unfold isOpen. cbn [_sd snd call trace].
    apply Z.eqb_neq in Hsd. rewrite Hsd. cbn [negb].
    rewrite closes_app. cbn [closes]. split; reflexivity.
Qed.

(** X17. [localinfo] works on a socket of its own: when [socket] hands out a
    descriptor, that descriptor is closed exactly once before the
    function returns and nothing else is closed, whatever the system
    answers; the receiver keeps its descriptor and its error code. *)
Theorem localinfo_closes_temporary (s : Socket) (w : World) :
  let sd := ret (os (trace w) sys_socket) in
  sd <> -1 ->
  let '(s', _, w') := localinfo s w in
  closes (trace w') = closes (trace w) ++ [sd] /\
  _sd s' = _sd s /\ _errno s' = _errno s.
Proof.
  intros sd Hsd. unfold localinfo, Socket_new. os_step. fold sd.
  match goal with |- context [Socket_sd sd ?w0] =>
    pose proof (Socket_sd_closes sd w0 Hsd) as Hnew;
    destruct (Socket_sd sd w0) as [local w1] end.
  cbn [trace] in Hnew. rewrite closes_app in Hnew. cbn [closes] in Hnew.
  rewrite app_nil_r in Hnew. destruct Hnew as [Hcl Hopen].
  pose proof (connect_trace 0 INADDR_LOOPBACK local w1) as Hc.
  destruct (connect 0 INADDR_LOOPBACK local w1) as [l1 w2].
  destruct Hc as (Htr & Hl1).
  assert (Hcl2 : closes (trace w2) = closes (trace w1)).
  { rewrite Htr, closes_app. destruct (good local); cbn [closes];
      now rewrite app_nil_r. }
  os_step. unfold Socket_dtor, isOpen in *. rewrite Hl1.
  case_if; os_step;
    destruct (negb (_sd local =? -1)) eqn:Ho;
    rewrite ?close_eq; unfold retM; cbn [trace _sd];
    rewrite ?closes_app; cbn [closes]; rewrite ?app_nil_r, Hcl2, Hcl;
    rewrite ?Hl1, ?(Hopen eq_refl), ?app_nil_r; repeat split.
Qed.

(* ================================================================== *)
(** ** How [getline] ends *)

Lemma last_nonempty_default (x c d : byte) (l : list byte) :
  last (x :: l) c = last (x :: l) d.
Proof.
  revert x. induction l as [ | y l IH]; intros x; [reflexivity | ].
  change (last (y :: l) c = last (y :: l) d). apply IH.
Qed.

Lemma last_cons_default (b c : byte) (l : list byte) :
  last (b :: l) c = last l b.
Proof.
  destruct l as [ | x l]; [reflexivity | ].
  change (last (x :: l) c = last (x :: l) b). apply last_nonempty_default.
Qed.

Lemma to_bool_same (a b : Socket) :
  rdstate b = rdstate a -> to_bool a = true -> to_bool b = true.
Proof. unfold to_bool, fail, has_flag. now intros ->. Qed.

(** The loop on a usable socket while plain bytes arrive: after
    [length line] rounds it has gathered [line], [c] is the last byte
    read, and the status word is as before. *)
Lemma read_while_gather (delim : byte) (line : list byte) :
  Forall (plain delim) line ->
  forall c acc s w,
    to_bool s = true ->
    delivers (_sd s) (trace w) line ->
    exists s' w',
      (forall k, read_while (List.length line + k) delim c acc s w
                 = read_while k delim (last line c) (acc ++ line) s' w') /\
      rdstate s' = rdstate s /\ _sd s' = _sd s /\
      trace w' = trace w ++ repeat (sys_read (_sd s) 1) (List.length line).
Proof.
  intros Hplain. induction Hplain as [ | b line Hb Hline IH];
    intros c acc s w Hs Hin.
  - exists s, w. cbn [List.length repeat last]. rewrite !app_nil_r. auto.
  - cbn [delivers] in Hin. destruct Hin as (Hret & Hhd & Hrest).
    destruct (read_one_byte c _ s w Hret Hhd)
      as (s1 & w1 & Hr & Hst & Hsd & Htr).
    pose proof (to_bool_same s s1 Hst Hs) as Hs1.
    destruct (IH b (acc ++ [b]) s1 w1 Hs1) as (s2 & w2 & Hk & Hst2 & Hsd2 & Htr2).
    { now rewrite Hsd, Htr. }
    exists s2, w2. repeat split; try congruence.
    + intros k. cbn [List.length Nat.add read_while]. rewrite Hr. cbn [hd].
      destruct (eqb_plain _ _ Hb) as [E1 E2]. rewrite Hs1, E1, E2.
      cbn [negb andb]. rewrite Hk, last_cons_default, <- app_assoc.
      reflexivity.
    + rewrite Htr2, Htr, Hsd, <- app_assoc. reflexivity.
Qed.

Lemma last_plain_not_null (delim : byte) (line : list byte) :
  Forall (plain delim) line -> Byte.eqb (last line xff) x00 = false.
Proof.
  intros H. induction H as [ | b line Hb Hline IH]; [reflexivity | ].
  rewrite last_cons_default. destruct Hline as [ | b' line' Hb' Hline'].
  - apply (eqb_plain _ _ Hb).
  - rewrite last_cons_default in IH.
    rewrite (last_cons_default b' b). exact IH.
Qed.

(** The loop when the read that follows the gathered bytes raises a bit
    that makes the stream unusable: it stops there, with what it has. *)
Lemma read_while_stop (delim : byte) (line : list byte) (fuel : nat)
    (s : Socket) (w : World) :
  Forall (plain delim) line ->
  to_bool s = true ->
  delivers (_sd s) (trace w) line ->
  (List.length line < fuel)%nat ->
  (forall s0 w0 c, rdstate s0 = rdstate s -> _sd s0 = _sd s ->
     trace w0 = trace w ++ repeat (sys_read (_sd s) 1) (List.length line) ->
     let '(s1, cbuf, _) := read [c] 1 s0 w0 in
     to_bool s1 = false /\ hd c cbuf = c) ->
  exists s0 w0,
    rdstate s0 = rdstate s /\ _sd s0 = _sd s /\
    trace w0 = trace w ++ repeat (sys_read (_sd s) 1) (List.length line) /\
    let '(s1, _, w1) := read [last line xff] 1 s0 w0 in
    getline fuel delim [] s w = Some (s1, line, w1).
Proof.
  intros Hplain Hs Hin Hfuel Hstop.
  destruct (read_while_gather delim line Hplain xff [] s w Hs Hin)
    as (s0 & w0 & Hk & Hst & Hsd & Htr).
  exists s0, w0. repeat split; try assumption.
  specialize (Hstop s0 w0 (last line xff) Hst Hsd Htr).
  destruct (read [last line xff] 1 s0 w0) as [[s1 cbuf] w1] eqn:Hr.
  destruct Hstop as [Hdead Hc].
  destruct fuel as [ | fuel]; [lia | ]. cbn [getline].
  replace (S fuel) with (List.length line + S (fuel - List.length line))%nat
    by lia.
  rewrite Hk. cbn [read_while app]. rewrite Hr, Hc, Hdead. cbn [andb].
  now rewrite (last_plain_not_null delim line Hplain).
Qed.

(** X19. A whole line: when the peer sends the plain bytes [line] and then the
    delimiter, [getline] on a usable socket returns [line] without the
    delimiter, which it has consumed, and leaves the status word alone. *)
Theorem getline_line (delim : byte) (line buffer : list byte) (fuel : nat)
    (s : Socket) (w : World) :
  delim <> x00 ->
  Forall (plain delim) line ->
  to_bool s = true ->
  delivers (_sd s) (trace w) (line ++ [delim]) ->
  (List.length line < fuel)%nat ->
  exists s' w',
    getline fuel delim buffer s w = Some (s', line, w') /\
    rdstate s' = rdstate s /\
    trace w' = trace w ++ repeat (sys_read (_sd s) 1) (S (List.length line)).
Proof.
  intros Hdelim Hplain Hs Hin Hfuel.
  destruct fuel as [ | fuel]; [lia | ]. cbn [getline].
  destruct (read_while_line delim delim line (or_introl eq_refl) Hplain
              (S fuel) xff [] s w Hs Hin Hfuel)
    as (s1 & w1 & Hloop & Hst & _ & Htr).
  rewrite Hloop.
  assert (E : Byte.eqb delim x00 = false).
  { destruct (Byte.eqb delim x00) eqn:E; [ | reflexivity].
    now apply Byte.byte_dec_bl in E. }
  rewrite E. exists s1, w1. auto.
Qed.

(** X20. A read error in mid-line: when the peer has sent the plain bytes
    [line] and the next [read] returns -1, [getline] returns [line] with
    [badbit] set. *)
Theorem getline_read_error (delim : byte) (line buffer : list byte)
    (fuel : nat) (s : Socket) (w : World) :
  Forall (plain delim) line ->
  to_bool s = true ->
  delivers (_sd s) (trace w) line ->
  ret (os (trace w ++ repeat (sys_read (_sd s) 1) (List.length line))
          (sys_read (_sd s) 1)) = -1 ->
  (List.length line < fuel)%nat ->
  exists s' w',
    getline fuel delim buffer s w = Some (s', line, w') /\
    bad s' = true /\
    trace w' = trace w ++ repeat (sys_read (_sd s) 1) (S (List.length line)).
Proof.
  intros Hplain Hs Hin Herr Hfuel. rewrite getline_clears.
  destruct (read_while_stop delim line fuel s w Hplain Hs Hin Hfuel)
    as (s0 & w0 & Hst & Hsd & Htr & Hget).
  - intros s0 w0 c Hst Hsd Htr. unfold read. os_step.
    rewrite Hsd, Htr, Herr. change (0 <? -1) with false.
    change (-1 =? 0) with false. change (-1 =? -1) with true. cbn [andb].
    split; [ | reflexivity]. unfold to_bool. apply negb_false_iff.
    apply failbit_fail_bad. unfold bad. now apply has_flag_setstate.
  - revert Hget. unfold read. os_step. rewrite Hsd, Htr, Herr.
    change (0 <? -1) with false.
    change (-1 =? 0) with false. change (-1 =? -1) with true. cbn [andb].
    intros Hget. eexists. eexists. split; [exact Hget | ]. split.
    + unfold bad. now apply has_flag_setstate.
    + cbn [trace]. rewrite <- app_assoc.
      change (S (List.length line)) with (1 + List.length line)%nat.
      rewrite Nat.add_comm, repeat_app. reflexivity.
Qed.

(** X21. End of stream in mid-line, the [std::ios] base having no stream
    buffer: when the peer has sent the plain bytes [line] and the next
    [read] returns 0, [getline] returns [line] with [eofbit] set (and
    [badbit], which [clear] adds and which ends the loop). *)
Theorem getline_end_of_stream (delim : byte) (line buffer : list byte)
    (fuel : nat) (s : Socket) (w : World) :
  rdbuf = false ->
  Forall (plain delim) line ->
  to_bool s = true ->
  delivers (_sd s) (trace w) line ->
  ret (os (trace w ++ repeat (sys_read (_sd s) 1) (List.length line))
          (sys_read (_sd s) 1)) = 0 ->
  (List.length line < fuel)%nat ->
  exists s' w',
    getline fuel delim buffer s w = Some (s', line, w') /\
    eof s' = true /\ bad s' = true /\
    trace w' = trace w ++ repeat (sys_read (_sd s) 1) (S (List.length line)).
Proof.
  intros Hbuf Hplain Hs Hin Heof Hfuel. rewrite getline_clears.
  assert (Hbad : forall x, bad (setstate eofbit x) = true).
  { intros x. unfold bad. apply has_flag_true. rewrite rdstate_setstate, Hbuf.
    apply land_lor_r. discriminate. }
  destruct (read_while_stop delim line fuel s w Hplain Hs Hin Hfuel)
    as (s0 & w0 & Hst & Hsd & Htr & Hget).
  - intros s0 w0 c Hst Hsd Htr. unfold read. os_step.
    rewrite Hsd, Htr, Heof. change (0 <? 0) with false.
    change (0 =? 0) with true. change (0 <? 1) with true.
    change (0 =? -1) with false. cbn [andb].
    split; [ | reflexivity]. unfold to_bool. apply negb_false_iff.
    apply failbit_fail_bad. apply Hbad.
  - revert Hget. unfold read. os_step. rewrite Hsd, Htr, Heof.
    change (0 <? 0) with false.
    change (0 =? 0) with true. change (0 <? 1) with true.
    change (0 =? -1) with false. cbn [andb].
    intros Hget. eexists. eexists. split; [exact Hget | ]. repeat split.
    + unfold eof. now apply has_flag_setstate.
    + apply Hbad.
    + cbn [trace]. rewrite <- app_assoc.
      change (S (List.length line)) with (1 + List.length line)%nat.
      rewrite Nat.add_comm, repeat_app. reflexivity.
Qed.

(** X22. On a socket that has already failed, [getline] still reads: it takes
    one byte off the stream and, unless that byte is a null, returns at
    once with an empty string. *)
Theorem getline_on_failed_socket (fuel : nat) (delim : byte)
    (buffer cbuf : list byte) (s s1 : Socket) (w w1 : World) :
  fail s = true ->
  read [xff] 1 s w = (s1, cbuf, w1) ->
  hd xff cbuf <> x00 ->
  getline (S fuel) delim buffer s w = Some (s1, [], w1) /\
  trace w1 = trace w ++ [sys_read (_sd s) 1].
Proof.
  intros Hfail Hr Hc. cbn [getline read_while]. rewrite Hr.
  pose proof (read_keeps_bits [xff] 1 s w) as K. rewrite Hr in K. cbn [fst] in K.
  unfold to_bool. unfold fail in *.
  rewrite (keeps_bits_has_flag _ s s1 K Hfail). cbn [negb andb].
  destruct (Byte.eqb (hd xff cbuf) x00) eqn:E.
  - now apply Byte.byte_dec_bl in E.
  - split; [reflexivity | ].
    pose proof (read_trace [xff] 1 s w) as T. now rewrite Hr in T.
Qed.

(* ================================================================== *)
(** ** A failed [listen] and the [accept] that follows *)

(** [Socket(int)] on the descriptor -1: the object is unbound whatever
    [setsockopt] answers, and the only call besides [setsockopt] is the
    [close] of the failure path. *)
Lemma Socket_sd_unbound (w : World) :
  let (p, w') := Socket_sd (-1) w in
  _sd p = -1 /\
  (trace w' = trace w ++ [sys_setsockopt (-1)] \/
   trace w' = trace w ++ [sys_setsockopt (-1); sys_close (-1)]).
Proof.
  destruct (Z.eq_dec (ret (os (trace w) (sys_setsockopt (-1)))) (-1))
    as [Hf | Hok].
  - rewrite (Socket_sd_failure (-1) w Hf), close_eq.
    cbn [snd call trace _sd with_errno with_rdstate setstate clear].
    split; [reflexivity | right]. now rewrite <- app_assoc.
  - rewrite (Socket_sd_success (-1) w Hok). cbn [snd call trace _sd].
    split; [reflexivity | now left].
Qed.

(** X11. When [listen] fails on a good socket, at [bind] or at the system's
    [listen], the [accept()] that follows issues no [accept] call: it
    only builds a socket on the descriptor -1, which it returns. *)
Theorem listen_failure_blocks_accept (port addr count : Z)
    (s : Socket) (w : World) :
  let b := sys_bind (_sd s) (mk_sockaddr_in AF_INET port addr) in
  let l := sys_listen (_sd s) count in
  good s = true ->
  ret (os (trace w) b) = -1 \/ ret (os (trace w ++ [b]) l) = -1 ->
  let (s1, w1) := listen port addr count s w in
  let '(_, peer, w2) := accept s1 w1 in
  good s1 = false /\ _sd peer = -1 /\
  (trace w2 = trace w1 ++ [sys_setsockopt (-1)] \/
   trace w2 = trace w1 ++ [sys_setsockopt (-1); sys_close (-1)]).
Proof.
  intros b l Hgood Hfail.
  assert (Hg : good (setstate failbit s) = false) by now apply good_setstate.
  assert (Hs1 : good (fst (listen port addr count s w)) = false).
  { unfold listen. os_step. rewrite Hgood. os_step. fold b.
    destruct (ret (os (trace w) b) =? -1) eqn:Hb.
    - rewrite Hg. os_step. now rewrite good_with_errno.
    - rewrite Hgood. os_step. fold l.
      destruct Hfail as [Hfail | Hfail].
      + apply Z.eqb_neq in Hb. contradiction.
      + rewrite Hfail. change (-1 =? -1) with true. cbv iota.
        now rewrite good_with_errno. }
  destruct (listen port addr count s w) as [s1 w1]. cbn [fst] in Hs1.
  unfold accept. os_step. rewrite Hs1. os_step.
  match goal with |- context [Socket_sd (-1) ?w0] =>
    pose proof (Socket_sd_unbound w0) as Hp;
    destruct (Socket_sd (-1) w0) as [peer w2] end.
  cbn [trace] in Hp. tauto.
Qed.

End Methods.


(* ================================================================== *)
(** ** The example programs *)

Section Examples.

Variable rdbuf : bool.
Variable os : list syscall -> syscall -> reply.

(** [htons] depends on the byte order of the host and [SOMAXCONN] on the
    system headers; both are taken as given. *)
Variable htons : Z -> Z.
Variable SOMAXCONN : Z.

Definition INADDR_ANY : Z := 0.

(** ["hello world!\n"] *)
Definition hello_world : list byte :=
  [x68; x65; x6c; x6c; x6f; x20; x77; x6f; x72; x6c; x64; x21; x0a].

Local Open Scope os_scope.

(** [example/server.cpp], [main]: the value it returns.  [client] and
    then [server] are destroyed when [main] returns. *)
Definition server_main : OS Z :=
  server <- Socket_new rdbuf os ;;
  server <- listen rdbuf os (htons 1212) INADDR_ANY SOMAXCONN server ;;
  '(server, client) <- accept rdbuf os server ;;
  client <- write rdbuf os hello_world 13 client ;;
  _ <- Socket_dtor rdbuf os client ;;
  _ <- Socket_dtor rdbuf os server ;;
  retM 0.

(** [example/client.cpp], [main]: the value it returns and what it has
    written to [std::cout].  [client] is destroyed when [main] returns. *)
Definition client_main (fuel : nat) (w : World)
    : option (Z * list byte * World) :=
  let buffer := [] in
  let (client, w) := Socket_new rdbuf os w in
  let (client, w) := connect rdbuf os (htons 1212) INADDR_ANY client w in
  match getline rdbuf os fuel x0a buffer client w with
  | None => None
  | Some (client, buffer, w) =>
      let cout := buffer ++ [x0a] in      (* << buffer << std::endl *)
      let (_, w) := Socket_dtor rdbuf os client w in
      Some (0, cout, w)
  end.

Lemma closes_repeat_read (sd : Z) (n : nat) :
  closes (repeat (sys_read sd 1) n) = [].
Proof. induction n as [ | n IH]; [reflexivity | exact IH]. Qed.

(** X23. The server when nothing fails: it opens a socket, binds it to port
    1212 on any address, listens, accepts one connection, writes the 13
    bytes of ["hello world!\n"] to it, then closes the connection and the
    listening socket, in this order. *)
Theorem server_main_run (ssd csd : Z) (w : World) :
  ret (os (trace w) sys_socket) = ssd -> ssd <> -1 ->
  (forall h, ret (os h (sys_setsockopt ssd)) <> -1) ->
  (forall h a, ret (os h (sys_bind ssd a)) <> -1) ->
  (forall h n, ret (os h (sys_listen ssd n)) <> -1) ->
  (forall h, ret (os h (sys_accept ssd)) = csd) -> csd <> -1 ->
  (forall h, ret (os h (sys_setsockopt csd)) <> -1) ->
  let (status, w') := server_main w in
  status = 0 /\
  trace w' =
    trace w ++
    [ sys_socket; sys_setsockopt ssd;
      sys_bind ssd (mk_sockaddr_in AF_INET (htons 1212) INADDR_ANY);
      sys_listen ssd SOMAXCONN;
      sys_accept ssd; sys_setsockopt csd;
      sys_write csd hello_world 13;
      sys_close csd; sys_close ssd ].
Proof.
  intros Hsock Hssd Hopt Hbind Hlisten Hacc Hcsd Hopt2.
  apply Z.eqb_neq in Hssd. apply Z.eqb_neq in Hcsd.
  unfold server_main, bindM, retM.
  rewrite Socket_new_success by (rewrite Hsock; apply Hopt).
  rewrite Hsock.
  rewrite listen_success by (cbn [_sd]; auto).
  cbn [_sd trace].
  rewrite accept_success_eq by (cbn [_sd trace]; rewrite ?Hacc; auto).
  cbn [_sd trace with_errno]. rewrite Hacc.
  unfold write, bindM, retM, call, get_errno. cbn [_sd trace errno].
  unfold Socket_dtor, isOpen.
  assert (Hkeep : forall (f : bool) (x : Socket),
            _sd (if f then setstate rdbuf badbit x else x) = _sd x)
    by (intros [] x; reflexivity).
  rewrite Hkeep. cbn [_sd with_errno]. rewrite Hcsd. cbn [negb].
  rewrite close_eq. rewrite Hkeep. cbn [_sd with_errno trace].
  rewrite Hssd. cbn [negb]. rewrite close_eq. cbn [_sd trace].
  split; [reflexivity | ]. rewrite <- !app_assoc. reflexivity.
Qed.

(** X24. The client when nothing fails and the server sends [line] followed by
    a newline: it prints [line] and a newline, returns 0, and has closed
    its descriptor exactly once. *)
Theorem client_main_prints_line (sd : Z) (line : list byte) (fuel : nat)
    (w : World) :
  ret (os (trace w) sys_socket) = sd -> sd <> -1 ->
  (forall h, ret (os h (sys_setsockopt sd)) <> -1) ->
  (forall h a, ret (os h (sys_connect sd a)) <> -1) ->
  Forall (plain x0a) line ->
  delivers os sd
    (trace w ++ [ sys_socket; sys_setsockopt sd;
                  sys_connect sd
                    (mk_sockaddr_in AF_INET (htons 1212) INADDR_ANY) ])
    (line ++ [x0a]) ->
  (List.length line < fuel)%nat ->
  exists w',
    client_main fuel w = Some (0, line ++ [x0a], w') /\
    closes (trace w') = closes (trace w) ++ [sd].
Proof.
  intros Hsock Hsd Hopt Hconn Hplain Hin Hfuel.
  unfold client_main.
  rewrite Socket_new_success by (rewrite Hsock; apply Hopt).
  rewrite Hsock.
  rewrite connect_success by (cbn [_sd]; auto).
  cbn [_sd trace]. rewrite <- app_assoc. cbn [app].
  match goal with |- context [getline _ _ _ _ _ ?c1 ?w1] =>
    set (client := c1); set (w1' := w1) end.
  destruct fuel as [ | fuel]; [lia | ]. cbn [getline].
  destruct (read_while_line rdbuf os x0a x0a line (or_introl eq_refl) Hplain
              (S fuel) xff [] client w1' eq_refl Hin Hfuel)
    as (c2 & w2 & Hloop & _ & Hsd2 & Htr2).
  rewrite Hloop. change (Byte.eqb x0a x00) with false. cbv iota.
  unfold Socket_dtor, isOpen. rewrite Hsd2. unfold client at 1.
  cbn [_sd with_errno].
  apply Z.eqb_neq in Hsd. rewrite Hsd. cbn [negb].
  rewrite close_eq. eexists. split; [reflexivity | ].
  cbn [trace]. rewrite Htr2, Hsd2. unfold w1', client.
  cbn [trace _sd with_errno].
  rewrite !closes_app, closes_repeat_read. cbn [closes].
  now rewrite !app_nil_r.
Qed.

End Examples.





(* ================================================================== *)
(** ** Concrete runs *)

(** A socket on descriptor 3, healthy, and the same after a failed call. *)
Definition sock3 : Socket := mk_Socket 3 0 goodbit.
Definition sock3_failed : Socket := mk_Socket 3 0 failbit.

(** The bytes of ["ab\0cd\n"]. *)
Definition line_with_null : list byte := [x61; x62; x00; x63; x64; x0a].

(** A session on a socket that has already failed, against a peer that
    sends ["hi\n"]. *)
Definition session : list op :=
  [ op_listen 1212 0 5; op_connect_str 1212 "127.0.0.1";
    op_read [x00] 1; op_getline [] x0a; op_write [x68; x69] 2;
    op_errcode; op_close; op_isOpen; op_connect 1212 0; op_info ].

Definition session_end : Socket * World :=
  Eval vm_compute in
    match run_ops true (os_peer [x68; x69; x0a]) 8 session sock3_failed world0 with
    | Some r => r
    | None => (sock3_failed, world0)
    end.

Lemma failed_socket_calls_witness :
  fail sock3_failed = true /\
  ((let (s', w') := listen true (os_peer []) 1212 0 5 sock3_failed world0 in
    trace w' = trace world0 /\ rdstate s' = rdstate sock3_failed) /\
   (let (s', w') := connect true (os_peer []) 1212 0 sock3_failed world0 in
    trace w' = trace world0 /\ rdstate s' = rdstate sock3_failed) /\
   (let (s', w') :=
      listen_str true (os_peer []) 1212 "127.0.0.1" 5 sock3_failed world0 in
    trace w' = trace world0 ++ [sys_inet_pton "127.0.0.1"] /\
    rdstate s' =
      rdstate (if ret (os_peer [] (trace world0)
                         (sys_inet_pton "127.0.0.1")) =? -1
               then setstate true failbit sock3_failed else sock3_failed)) /\
   (let (s', w') :=
      connect_str true (os_peer []) 1212 "127.0.0.1" sock3_failed world0 in
    trace w' = trace world0 ++ [sys_inet_pton "127.0.0.1"] /\
    rdstate s' =
      rdstate (if ret (os_peer [] (trace world0)
                         (sys_inet_pton "127.0.0.1")) =? -1
               then setstate true failbit sock3_failed else sock3_failed))) /\
  (let '(s', _, w') := read true (os_peer []) [x00] 1 sock3_failed world0 in
   trace w' = trace world0 ++ [sys_read (_sd sock3_failed) 1] /\
   keeps_bits sock3_failed s').
Proof.
  split; [reflexivity | ].
  destruct (failed_socket_calls true (os_peer []) 1212 0 5 1 "127.0.0.1"
              [x00] sock3_failed world0) as [Hguarded Hread].
  split; [exact (Hguarded eq_refl) | exact Hread].
Defined.

(** C1, as stated, fails for [read]: on the socket [sock3_failed], whose
    [failbit] is set, [read] of one byte on a system where every call
    fails does issue the [read] call, and the status word changes (from
    [failbit] to [failbit | badbit]); this with or without a stream buffer
    in the [std::ios] base. *)
Lemma read_on_failed_socket_not_guarded :
  ~ (fail sock3_failed = true ->
     let '(s', _, w') := read true os_down [x00] 1 sock3_failed world0 in
     trace w' = trace world0 /\ rdstate s' = rdstate sock3_failed) /\
  ~ (fail sock3_failed = true ->
     let '(s', _, w') := read false os_down [x00] 1 sock3_failed world0 in
     trace w' = trace world0 /\ rdstate s' = rdstate sock3_failed).
Proof.
  split; intros H; specialize (H eq_refl); cbn in H; destruct H as [H _];
    discriminate H.
Qed.

(** C2 at a failing input: [close] on a socket with [failbit] set, the
    system's [close] returning 0.  The status keeps [failbit] (and gains
    [badbit] when the [std::ios] base has no stream buffer); it is not the
    good state. *)
Theorem close_success_leaves_failbit (rdbuf : bool) :
  ret (os_peer [] (trace world0) (sys_close (_sd sock3_failed))) = 0 /\
  let (s', w') := close rdbuf (os_peer []) sock3_failed world0 in
  trace w' = [sys_close 3] /\
  rdstate s' = (if rdbuf then failbit else Z.lor failbit badbit) /\
  has_flag failbit s' = true /\ good s' = false.
Proof. destruct rdbuf; vm_compute; repeat split. Qed.

(** C3, as stated, fails: on the input ["ab\0cd\n"] the loop stops on the
    null byte with ["ab"] in the string, and the call returns ["cd"]; this
    with or without a stream buffer in the [std::ios] base. *)
Lemma getline_drops_bytes_before_null :
  (exists s1 w1,
     read_while true (os_peer line_with_null) 7 x0a xff [] sock3 world0
     = Some (s1, x00, [x61; x62], w1)) /\
  (exists s' w',
     getline true (os_peer line_with_null) 7 x0a [] sock3 world0
     = Some (s', [x63; x64], w')) /\
  (exists s1 w1,
     read_while false (os_peer line_with_null) 7 x0a xff [] sock3 world0
     = Some (s1, x00, [x61; x62], w1)) /\
  (exists s' w',
     getline false (os_peer line_with_null) 7 x0a [] sock3 world0
     = Some (s', [x63; x64], w')).
Proof. repeat split; eexists; eexists; vm_compute; reflexivity. Qed.

Lemma getline_null_restarts_witness :
  read_while true (os_peer line_with_null) 7 x0a xff [] sock3 world0
  = Some (sock3, x00, [x61; x62],
          mk_World (repeat (sys_read 3 1) 3) 0
            sockaddr_zero sockaddr_zero sockaddr_zero) /\
  getline true (os_peer line_with_null) 7 x0a [x7a] sock3 world0
  = getline true (os_peer line_with_null) 6 x0a [] sock3
      (mk_World (repeat (sys_read 3 1) 3) 0
         sockaddr_zero sockaddr_zero sockaddr_zero).
Proof.
  split; [reflexivity | ].
  apply (getline_null_restarts true (os_peer line_with_null) 6 x0a [x7a]
           [x61; x62] sock3 sock3 world0).
  reflexivity.
Defined.

(** C4 at a failing input: [inet_pton] answers 0 for ["not.an.ip"], yet
    [strToAddr] returns [true] with the address 0, and the string overload
    of [listen] goes on to bind to that address without setting
    [failbit]. *)
Theorem strToAddr_accepts_malformed (rdbuf : bool) :
  ret (os_peer [] (trace world0) (sys_inet_pton "not.an.ip")) = 0 /\
  fst (strToAddr (os_peer []) "not.an.ip" 0 world0) = (true, 0) /\
  let (s', w') := listen_str rdbuf (os_peer []) 1212 "not.an.ip" 5 sock3 world0 in
  has_flag failbit s' = false /\ good s' = true /\
  trace w' = [ sys_inet_pton "not.an.ip";
               sys_bind 3 (mk_sockaddr_in AF_INET 1212 0);
               sys_listen 3 5 ].
Proof. destruct rdbuf; vm_compute; repeat split. Qed.

(** C5 at a failing input: after move-construction from a socket on
    descriptor 3 both objects hold descriptor 3 and both are open; when
    the two are destroyed, [close(3)] is issued twice. *)
Theorem Socket_move_leaves_source_open :
  let (new, other') := Socket_move sock3 in
  _sd new = 3 /\ _sd other' = 3 /\
  isOpen new = true /\ isOpen other' = true /\
  trace (snd (Socket_dtor true (os_peer []) other'
                (snd (Socket_dtor true (os_peer []) new world0))))
  = [sys_close 3; sys_close 3].
Proof. vm_compute. repeat split. Qed.

Lemma ctor_setsockopt_failure_witness :
  ret (os_peer [] (trace world0) (sys_setsockopt (-1))) = -1 /\
  (let (s, w') := Socket_sd true (os_peer []) (-1) world0 in
   trace w' = trace world0 ++ [sys_setsockopt (-1); sys_close (-1)] /\
   _sd s = -1 /\ isOpen s = false /\ has_flag failbit s = true).
Proof.
  split; [reflexivity | ].
  apply (ctor_setsockopt_failure true (os_peer []) (-1) world0).
  reflexivity.
Defined.

Lemma status_bits_never_cleared_witness :
  run_ops true (os_peer [x68; x69; x0a]) 8 session sock3_failed world0
  = Some (fst session_end, snd session_end) /\
  (has_flag failbit sock3_failed = true ->
   has_flag failbit (fst session_end) = true) /\
  (has_flag badbit sock3_failed = true ->
   has_flag badbit (fst session_end) = true).
Proof.
  split; [vm_compute; reflexivity | ].
  apply (status_bits_never_cleared true (os_peer [x68; x69; x0a]) 8 session
           sock3_failed world0 (fst session_end) (snd session_end)).
  vm_compute. reflexivity.
Defined.

Lemma read_eof_or_bad_witness :
  (ret (os_peer [] (trace world0) (sys_read (_sd sock3) 1)) = 0 /\ 0 < 1 \/
   ret (os_peer [] (trace world0) (sys_read (_sd sock3) 1)) = -1) /\
  (let '(s', _, w') := read true (os_peer []) [xff] 1 sock3 world0 in
   (if ret (os_peer [] (trace world0) (sys_read (_sd sock3) 1)) =? 0
    then eof s' else bad s') = true /\
   _errno s' = err (os_peer [] (trace world0) (sys_read (_sd sock3) 1)) /\
   errno w' = err (os_peer [] (trace world0) (sys_read (_sd sock3) 1)) /\
   _sd s' = _sd sock3).
Proof.
  split; [left; split; [reflexivity | lia] | ].
  apply (read_eof_or_bad true (os_peer []) [xff] 1 sock3 world0).
  left; split; [reflexivity | lia].
Defined.

Lemma accept_failure_unbound_witness :
  (forall h, ret (os_peer [] h (sys_setsockopt (-1))) = -1) /\
  (good sock3_failed = false \/
   ret (os_peer [] (trace world0) (sys_accept (_sd sock3_failed))) = -1) /\
  (let '(_, peer, _) := accept true (os_peer []) sock3_failed world0 in
   _sd peer = -1 /\ isOpen peer = false /\ has_flag failbit peer = true).
Proof.
  split; [intros h; reflexivity | ].
  split; [left; reflexivity | ].
  apply (accept_failure_unbound true (os_peer []) sock3_failed world0).
  - intros h. reflexivity.
  - left. reflexivity.
Defined.

(* ================================================================== *)
(** ** Further concrete runs *)

(** Connection reset by peer. *)
Definition ECONNRESET : Z := 104.

(** Like [os_peer], but once [input] is used up every [read] fails. *)
Definition os_reset (input : list byte) (h : list syscall) (c : syscall)
    : reply :=
  match c with
  | sys_read sd _ =>
      match nth_error input (List.length (filter is_read h)) with
      | Some b => os_peer input h c
      | None => ko ECONNRESET
      end
  | _ => os_peer input h c
  end.

(** A system that answers the first call with an address and fails every
    later one. *)
Definition os_once (h : list syscall) (c : syscall) : reply :=
  match h with
  | [] => mk_reply 0 0 [] 0 (mk_sockaddr_in AF_INET 1212 INADDR_LOOPBACK)
  | _ :: _ => ko EBADF
  end.

(** [htons] on a little-endian host. *)
Definition htons_le (x : Z) : Z :=
  Z.lor (Z.shiftl (Z.land x 255) 8) (Z.shiftr (Z.land x 65280) 8).

(** A socket with a captured error code. *)
Definition sock3_errno : Socket := mk_Socket 3 ECONNRESET failbit.

(** The bytes of ["hi"]. *)
Definition hi : list byte := [x68; x69].

Definition after_reads (n : nat) : World :=
  mk_World (repeat (sys_read 3 1) n) 0 sockaddr_zero sockaddr_zero sockaddr_zero.

Lemma default_ctor_success_witness :
  ret (os_peer [] (trace world0) sys_socket) <> -1 /\
  ret (os_peer [] (trace world0 ++ [sys_socket])
         (sys_setsockopt (ret (os_peer [] (trace world0) sys_socket)))) <> -1 /\
  (let (s, w') := Socket_new true (os_peer []) world0 in
   good s = true /\ isOpen s = true /\
   _sd s = ret (os_peer [] (trace world0) sys_socket) /\
   trace w' = trace world0 ++
     [sys_socket;
      sys_setsockopt (ret (os_peer [] (trace world0) sys_socket))] /\
   _errno s = errno w').
Proof.
  split; [discriminate | ]. split; [discriminate | ].
  apply (default_ctor_success true (os_peer []) world0); discriminate.
Defined.

Lemma close_failure_unbinds_witness :
  ret (os_down (trace world0) (sys_close (_sd sock3))) = -1 /\
  (let (s', w') := close true os_down sock3 world0 in
   has_flag failbit s' = true /\ _sd s' = -1 /\ isOpen s' = false /\
   trace w' = trace world0 ++ [sys_close (_sd sock3)] /\
   _errno s' = errno w').
Proof.
  split; [reflexivity | ].
  apply (close_failure_unbinds true os_down sock3 world0). reflexivity.
Defined.

Lemma ctor_dtor_closes_once_witness :
  3 <> -1 /\
  (let (s, w1) := Socket_sd true (os_peer []) 3 world0 in
   let (s', w2) := Socket_dtor true (os_peer []) s w1 in
   closes (trace w2) = closes (trace world0) ++ [3] /\ isOpen s' = false).
Proof.
  split; [discriminate | ].
  apply (ctor_dtor_closes_once true (os_peer []) 3 world0). discriminate.
Defined.

Lemma str_overloads_converted_witness :
  ret (os_peer [] (trace world0) (sys_inet_pton "127.0.0.1")) = 1 /\
  listen_str true (os_peer []) 1212 "127.0.0.1" 5 sock3 world0 =
    listen true (os_peer []) 1212
      (val (os_peer [] (trace world0) (sys_inet_pton "127.0.0.1"))) 5 sock3
      (snd (call (os_peer []) (sys_inet_pton "127.0.0.1") world0)) /\
  connect_str true (os_peer []) 1212 "127.0.0.1" sock3 world0 =
    connect true (os_peer []) 1212
      (val (os_peer [] (trace world0) (sys_inet_pton "127.0.0.1"))) sock3
      (snd (call (os_peer []) (sys_inet_pton "127.0.0.1") world0)).
Proof.
  split; [reflexivity | ].
  apply (str_overloads_converted true (os_peer []) 1212 5 "127.0.0.1"
           sock3 world0).
  reflexivity.
Defined.

Lemma str_overloads_conversion_error_witness :
  ret (os_down (trace world0) (sys_inet_pton "::1")) = -1 /\
  (let (s', w') := listen_str true os_down 1212 "::1" 5 sock3 world0 in
   has_flag failbit s' = true /\
   trace w' = trace world0 ++ [sys_inet_pton "::1"]) /\
  (let (s', w') := connect_str true os_down 1212 "::1" sock3 world0 in
   has_flag failbit s' = true /\
   trace w' = trace world0 ++ [sys_inet_pton "::1"]).
Proof.
  split; [reflexivity | ].
  apply (str_overloads_conversion_error true os_down 1212 5 "::1"
           sock3 world0).
  reflexivity.
Defined.

Lemma accept_success_witness :
  good sock3 = true /\
  ret (os_peer [] (trace world0 ++ [sys_accept (_sd sock3)])
         (sys_setsockopt
            (ret (os_peer [] (trace world0) (sys_accept (_sd sock3))))))
    <> -1 /\
  (let '(s', peer, w') := accept true (os_peer []) sock3 world0 in
   _sd peer = ret (os_peer [] (trace world0) (sys_accept (_sd sock3))) /\
   good peer = true /\
   trace w' = trace world0 ++
     [sys_accept (_sd sock3);
      sys_setsockopt
        (ret (os_peer [] (trace world0) (sys_accept (_sd sock3))))] /\
   _errno s' = err (os_peer [] (trace world0) (sys_accept (_sd sock3)))).
Proof.
  split; [reflexivity | ]. split; [discriminate | ].
  apply (accept_success true (os_peer []) sock3 world0);
    [reflexivity | discriminate].
Defined.

Lemma errcode_cached_witness :
  errcode true (os_peer []) sock3_errno world0
    = (sock3_errno, ECONNRESET, world0) /\
  ECONNRESET <> 0 /\
  errcode true (os_peer []) sock3_errno world0
    = (sock3_errno, ECONNRESET, world0).
Proof.
  split; [reflexivity | ]. split; [discriminate | ].
  apply (errcode_cached true (os_peer []) sock3_errno sock3_errno
           world0 world0 ECONNRESET); [reflexivity | discriminate].
Defined.

Lemma errcode_probe_failure_witness :
  _errno sock3 = 0 /\
  ret (os_down (trace world0) (sys_getsockopt (_sd sock3))) = -1 /\
  (let '(s', code, w') := errcode true os_down sock3 world0 in
   code = 0 /\ _errno s' = 0 /\ has_flag failbit s' = true /\
   trace w' = trace world0 ++ [sys_getsockopt (_sd sock3)]).
Proof.
  split; [reflexivity | ]. split; [reflexivity | ].
  apply (errcode_probe_failure true os_down sock3 world0); reflexivity.
Defined.

Lemma read_quiet_witness :
  ret (os_peer hi (trace world0) (sys_read (_sd sock3) 1)) <> -1 /\
  (ret (os_peer hi (trace world0) (sys_read (_sd sock3) 1)) <> 0 \/ 1 <= 0) /\
  (let '(s', _, w') := read true (os_peer hi) [xff] 1 sock3 world0 in
   rdstate s' = rdstate sock3 /\ _sd s' = _sd sock3 /\
   trace w' = trace world0 ++ [sys_read (_sd sock3) 1]).
Proof.
  split; [discriminate | ]. split; [left; discriminate | ].
  apply (read_quiet true (os_peer hi) [xff] 1 sock3 world0);
    [discriminate | left; discriminate].
Defined.

Lemma address_queries_stale_witness :
  ret (os_once (trace world0) (sys_getsockname (_sd sock3))) <> -1 /\
  ret (os_once (trace world0 ++ [sys_getsockname (_sd sock3)])
         (sys_getsockname (_sd sock3))) = -1 /\
  ret (os_once (trace world0) (sys_getpeername (_sd sock3))) <> -1 /\
  ret (os_once (trace world0 ++ [sys_getpeername (_sd sock3)])
         (sys_getpeername (_sd sock3))) = -1 /\
  (let '(s1, a1, w1) := info true os_once sock3 world0 in
   let '(s2, a2, w2) := info true os_once s1 w1 in
   a1 = sa (os_once (trace world0) (sys_getsockname (_sd sock3))) /\
   a2 = a1 /\ rdstate s1 = rdstate sock3 /\ has_flag failbit s2 = true) /\
  (let '(s1, a1, w1) := peerinfo true os_once sock3 world0 in
   let '(s2, a2, w2) := peerinfo true os_once s1 w1 in
   a1 = sa (os_once (trace world0) (sys_getpeername (_sd sock3))) /\
   a2 = a1 /\ rdstate s1 = rdstate sock3 /\ has_flag failbit s2 = true).
Proof.
  split; [discriminate | ]. split; [reflexivity | ].
  split; [discriminate | ]. split; [reflexivity | ].
  apply (address_queries_stale true os_once sock3 world0);
    first [discriminate | reflexivity].
Defined.

Lemma descriptor_never_rebound_witness :
  run_ops true (os_peer [x68; x69; x0a]) 8 session sock3_failed world0
  = Some (fst session_end, snd session_end) /\
  (_sd (fst session_end) = _sd sock3_failed \/ _sd (fst session_end) = -1) /\
  (isOpen sock3_failed = false -> isOpen (fst session_end) = false).
Proof.
  split; [vm_compute; reflexivity | ].
  apply (descriptor_never_rebound true (os_peer [x68; x69; x0a]) 8 session
           sock3_failed world0 (fst session_end) (snd session_end)).
  vm_compute. reflexivity.
Defined.

Lemma localinfo_closes_temporary_witness :
  ret (os_peer [] (trace world0) sys_socket) <> -1 /\
  (let '(s', _, w') := localinfo true (os_peer []) sock3_failed world0 in
   closes (trace w') =
     closes (trace world0) ++ [ret (os_peer [] (trace world0) sys_socket)] /\
   _sd s' = _sd sock3_failed /\ _errno s' = _errno sock3_failed).
Proof.
  split; [discriminate | ].
  apply (localinfo_closes_temporary true (os_peer []) sock3_failed world0).
  discriminate.
Defined.

Lemma plain_hi : Forall (plain x0a) hi.
Proof. repeat constructor; discriminate. Qed.

Lemma getline_line_witness :
  x0a <> x00 /\ Forall (plain x0a) hi /\ to_bool sock3 = true /\
  delivers (os_peer (hi ++ [x0a])) (_sd sock3) (trace world0) (hi ++ [x0a]) /\
  (List.length hi < 4)%nat /\
  exists s' w',
    getline true (os_peer (hi ++ [x0a])) 4 x0a [x7a] sock3 world0
    = Some (s', hi, w') /\
    rdstate s' = rdstate sock3 /\
    trace w' = trace world0 ++
      repeat (sys_read (_sd sock3) 1) (S (List.length hi)).
Proof.
  assert (Hin : delivers (os_peer (hi ++ [x0a])) (_sd sock3) (trace world0)
                  (hi ++ [x0a])) by (cbn; repeat split).
  split; [discriminate | ]. split; [exact plain_hi | ].
  split; [reflexivity | ]. split; [exact Hin | ]. split; [cbn; lia | ].
  apply (getline_line true (os_peer (hi ++ [x0a])) x0a hi [x7a] 4 sock3 world0);
    [discriminate | exact plain_hi | reflexivity | exact Hin | cbn; lia].
Defined.

Lemma getline_read_error_witness :
  Forall (plain x0a) hi /\ to_bool sock3 = true /\
  delivers (os_reset hi) (_sd sock3) (trace world0) hi /\
  ret (os_reset hi
         (trace world0 ++ repeat (sys_read (_sd sock3) 1) (List.length hi))
         (sys_read (_sd sock3) 1)) = -1 /\
  (List.length hi < 4)%nat /\
  exists s' w',
    getline true (os_reset hi) 4 x0a [] sock3 world0 = Some (s', hi, w') /\
    bad s' = true /\
    trace w' = trace world0 ++
      repeat (sys_read (_sd sock3) 1) (S (List.length hi)).
Proof.
  assert (Hin : delivers (os_reset hi) (_sd sock3) (trace world0) hi)
    by (cbn; repeat split).
  split; [exact plain_hi | ]. split; [reflexivity | ]. split; [exact Hin | ].
  split; [reflexivity | ]. split; [cbn; lia | ].
  apply (getline_read_error true (os_reset hi) x0a hi [] 4 sock3 world0);
    [exact plain_hi | reflexivity | exact Hin | reflexivity | cbn; lia].
Defined.

Lemma getline_end_of_stream_witness :
  false = false /\ Forall (plain x0a) hi /\ to_bool sock3 = true /\
  delivers (os_peer hi) (_sd sock3) (trace world0) hi /\
  ret (os_peer hi
         (trace world0 ++ repeat (sys_read (_sd sock3) 1) (List.length hi))
         (sys_read (_sd sock3) 1)) = 0 /\
  (List.length hi < 4)%nat /\
  exists s' w',
    getline false (os_peer hi) 4 x0a [] sock3 world0 = Some (s', hi, w') /\
    eof s' = true /\ bad s' = true /\
    trace w' = trace world0 ++
      repeat (sys_read (_sd sock3) 1) (S (List.length hi)).
Proof.
  assert (Hin : delivers (os_peer hi) (_sd sock3) (trace world0) hi)
    by (cbn; repeat split).
  split; [reflexivity | ]. split; [exact plain_hi | ].
  split; [reflexivity | ]. split; [exact Hin | ].
  split; [reflexivity | ]. split; [cbn; lia | ].
  apply (getline_end_of_stream false (os_peer hi) x0a hi [] 4 sock3 world0);
    [reflexivity | exact plain_hi | reflexivity | exact Hin | reflexivity
    | cbn; lia].
Defined.

Lemma getline_on_failed_socket_witness :
  fail sock3_failed = true /\
  read true (os_peer hi) [xff] 1 sock3_failed world0
    = (sock3_failed, [x68], after_reads 1) /\
  hd xff [x68] <> x00 /\
  getline true (os_peer hi) 1 x0a [] sock3_failed world0
    = Some (sock3_failed, [], after_reads 1) /\
  trace (after_reads 1) = trace world0 ++ [sys_read (_sd sock3_failed) 1].
Proof.
  split; [reflexivity | ]. split; [reflexivity | ]. split; [discriminate | ].
  apply (getline_on_failed_socket true (os_peer hi) 0 x0a [] [x68]
           sock3_failed sock3_failed world0 (after_reads 1));
    [reflexivity | reflexivity | discriminate].
Defined.

Lemma server_main_run_witness :
  ret (os_peer [] (trace world0) sys_socket) = 3 /\ 3 <> -1 /\
  (forall h, ret (os_peer [] h (sys_setsockopt 3)) <> -1) /\
  (forall h a, ret (os_peer [] h (sys_bind 3 a)) <> -1) /\
  (forall h n, ret (os_peer [] h (sys_listen 3 n)) <> -1) /\
  (forall h, ret (os_peer [] h (sys_accept 3)) = 4) /\ 4 <> -1 /\
  (forall h, ret (os_peer [] h (sys_setsockopt 4)) <> -1) /\
  (let (status, w') := server_main true (os_peer []) htons_le 128 world0 in
   status = 0 /\
   trace w' =
     trace world0 ++
     [ sys_socket; sys_setsockopt 3;
       sys_bind 3 (mk_sockaddr_in AF_INET (htons_le 1212) INADDR_ANY);
       sys_listen 3 128;
       sys_accept 3; sys_setsockopt 4;
       sys_write 4 hello_world 13;
       sys_close 4; sys_close 3 ]).
Proof.
  assert (H1 : forall h, ret (os_peer [] h (sys_setsockopt 3)) <> -1)
    by (intros; discriminate).
  assert (H2 : forall h a, ret (os_peer [] h (sys_bind 3 a)) <> -1)
    by (intros; discriminate).
  assert (H3 : forall h n, ret (os_peer [] h (sys_listen 3 n)) <> -1)
    by (intros; discriminate).
  assert (H4 : forall h, ret (os_peer [] h (sys_accept 3)) = 4)
    by (intros; reflexivity).
  assert (H5 : forall h, ret (os_peer [] h (sys_setsockopt 4)) <> -1)
    by (intros; discriminate).
  split; [reflexivity | ]. split; [discriminate | ]. split; [exact H1 | ].
  split; [exact H2 | ]. split; [exact H3 | ]. split; [exact H4 | ].
  split; [discriminate | ]. split; [exact H5 | ].
  apply (server_main_run true (os_peer []) htons_le 128 3 4 world0);
    [reflexivity | discriminate | exact H1 | exact H2 | exact H3 | exact H4
    | discriminate | exact H5].
Defined.

Lemma client_main_prints_line_witness :
  ret (os_peer (hi ++ [x0a]) (trace world0) sys_socket) = 3 /\ 3 <> -1 /\
  (forall h, ret (os_peer (hi ++ [x0a]) h (sys_setsockopt 3)) <> -1) /\
  (forall h a, ret (os_peer (hi ++ [x0a]) h (sys_connect 3 a)) <> -1) /\
  Forall (plain x0a) hi /\
  delivers (os_peer (hi ++ [x0a])) 3
    (trace world0 ++
       [ sys_socket; sys_setsockopt 3;
         sys_connect 3 (mk_sockaddr_in AF_INET (htons_le 1212) INADDR_ANY) ])
    (hi ++ [x0a]) /\
  (List.length hi < 4)%nat /\
  exists w',
    client_main true (os_peer (hi ++ [x0a])) htons_le 4 world0
    = Some (0, hi ++ [x0a], w') /\
    closes (trace w') = closes (trace world0) ++ [3].
Proof.
  assert (H1 : forall h, ret (os_peer (hi ++ [x0a]) h (sys_setsockopt 3)) <> -1)
    by (intros; discriminate).
  assert (H2 : forall h a, ret (os_peer (hi ++ [x0a]) h (sys_connect 3 a)) <> -1)
    by (intros; discriminate).
  assert (Hin : delivers (os_peer (hi ++ [x0a])) 3
            (trace world0 ++
               [ sys_socket; sys_setsockopt 3;
                 sys_connect 3
                   (mk_sockaddr_in AF_INET (htons_le 1212) INADDR_ANY) ])
            (hi ++ [x0a])) by (cbn; repeat split).
  split; [reflexivity | ]. split; [discriminate | ]. split; [exact H1 | ].
  split; [exact H2 | ]. split; [exact plain_hi | ]. split; [exact Hin | ].
  split; [cbn; lia | ].
  apply (client_main_prints_line true (os_peer (hi ++ [x0a])) htons_le 3 hi 4
           world0);
    [reflexivity | discriminate | exact H1 | exact H2 | exact plain_hi
    | exact Hin | cbn; lia].
Defined.

Lemma listen_failure_blocks_accept_witness :
  good sock3 = true /\
  (ret (os_down (trace world0)
          (sys_bind (_sd sock3) (mk_sockaddr_in AF_INET 1212 0))) = -1 \/
   ret (os_down
          (trace world0 ++
             [sys_bind (_sd sock3) (mk_sockaddr_in AF_INET 1212 0)])
          (sys_listen (_sd sock3) 5)) = -1) /\
  (let (s1, w1) := listen true os_down 1212 0 5 sock3 world0 in
   let '(_, peer, w2) := accept true os_down s1 w1 in
   good s1 = false /\ _sd peer = -1 /\
   (trace w2 = trace w1 ++ [sys_setsockopt (-1)] \/
    trace w2 = trace w1 ++ [sys_setsockopt (-1); sys_close (-1)])).
Proof.
  split; [reflexivity | ]. split; [left; reflexivity | ].
  apply (listen_failure_blocks_accept true os_down 1212 0 5 sock3 world0);
    [reflexivity | left; reflexivity].
Defined.
